(** * Storage orchestration layer of pyroscope: a shallow embedding

    The development follows [pkg/storage/storage.go] and the two copies of
    [pkg/storage/db.go] that the repository carries.  Each Go function is
    given as a Rocq function (or, for the goroutines, as a step relation)
    and the properties of the specification are stated and proved about
    these definitions. *)

From Stdlib Require Import ZArith List Bool Lia.
From Stdlib Require Import Strings.Ascii Strings.String Strings.Byte.
From Stdlib Require Import Floats.SpecFloat.
From stdpp Require Import base decidable option list functions gmap strings.

Local Open Scope Z_scope.

(** ** Values shared by all parts *)

(** Go's [float64]: IEEE 754 binary64, as [spec_float] with precision 53
    and maximal exponent 1024. *)
Definition float64 : Type := spec_float.
Definition prec64 : Z := 53.
Definition emax64 : Z := 1024.

(** [float64(x)] for an unsigned integer [x]: round to nearest, ties to even. *)
Definition float64_of_uint (x : Z) : float64 :=
  binary_normalize prec64 emax64 x 0 false.

Definition f64_div (x y : float64) : float64 := SFdiv prec64 emax64 x y.
Definition f64_ltb (x y : float64) : bool := SFltb x y.
Definition f64_leb (x y : float64) : bool := SFleb x y.

(** The Go constant [0.7] as a binary64: 6305039478318694 * 2^-53. *)
Definition f64_0_7 : float64 := S754_finite false 6305039478318694 (-53).

(** Modelled from the spec: [bytesize.ByteSize] (package [pkg/util/bytesize]
    is not part of the sources at hand) is a number of bytes; sizes are
    integers and their differences are taken in the integers. *)
Definition ByteSize : Type := Z.

(** Errors returned by the engine.  [ErrNoRewrite] is badger's sentinel for
    "value log GC attempt didn't result in any cleanup". *)
Inductive error : Type :=
| ErrNoRewrite
| ErrOther (msg : string).

#[global] Instance error_eq_dec : EqDecision error.
Proof. solve_decision. Defined.

(** A Go [error] value: [None] is [nil]. *)
Definition go_error : Type := option error.

Inductive log_level : Type := DebugLevel | WarnLevel | ErrorLevel.

(** Calls that the storage code makes on its collaborators (engine, cache,
    logger, metrics, runtime), in the order in which they are issued. *)
Inductive event : Type :=
| EvLog (level : log_level) (db : string) (msg : string) (err : go_error)
| EvFlatten (db : string) (workers : Z)
| EvRunValueLogGC (db : string) (discardRatio : float64)
| EvGcCountInc (db : string)
| EvCacheEvict (db : string) (percent : float64)
| EvCacheWriteBack (db : string)
| EvRuntimeGC
| EvCollectGarbage.

(** The database wrapper [db] of db.go.  [has_cache] tells whether the
    embedded [*cache.Cache] is non-nil; [lsm] and [vlog] are the two numbers
    that the engine's [Size()] reports; [lastGC] and [gcCount] are the
    bookkeeping fields of the second copy of db.go. *)
Record db : Type := mk_db {
  name : string;
  has_cache : bool;
  lsm : Z;
  vlog : Z;
  lastGC : ByteSize;
  gcCount : Z
}.

(** Go's [int64] addition wraps around. *)
Definition int64_wrap (z : Z) : Z := (z + 2 ^ 63) mod 2 ^ 64 - 2 ^ 63.

(** [func (d *db) size() bytesize.ByteSize] *)
Definition db_size (d : db) : ByteSize := int64_wrap (lsm d + vlog d).

(** ** [prefix] (db.go) *)

Module Prefix.

(** [type prefix string]; a Go string is a sequence of bytes. *)
Definition prefix : Type := list byte.

Definition segmentPrefix : prefix := list_byte_of_string "s:".
Definition treePrefix : prefix := list_byte_of_string "t:".
Definition dictionaryPrefix : prefix := list_byte_of_string "d:".
Definition dimensionPrefix : prefix := list_byte_of_string "i:".

Definition bytes (p : prefix) : list byte := p.

(** [func (p prefix) key(k string) []byte { return []byte(string(p) + k) }] *)
Definition key (p : prefix) (k : list byte) : list byte := p ++ k.

(** [func (p prefix) trim(k []byte) ([]byte, bool)].  The [nil] slice is
    the empty list. *)
Definition trim (p : prefix) (k : list byte) : list byte * bool :=
  if (Z.of_nat (length p) <? Z.of_nat (length k))
  then (drop (length p) k, true)
  else ([], false).

End Prefix.

(** ** [db.runGC], first copy of db.go (the one with [openBadgerDB]/[newDB]) *)

Module DbV1.

(** [results] are the answers of the engine to the successive calls of
    [RunValueLogGC]; when they are used up the loop is still running and
    there is no return value yet. *)
Fixpoint runGC_loop (name : string) (discardRatio : float64)
    (results : list go_error) (reclaimed : bool) : list event * option bool :=
  match results with
  | [] => ([], None)
  | err :: rest =>
      match err with
      | None =>
          let '(tr, r) := runGC_loop name discardRatio rest true in
          (EvRunValueLogGC name discardRatio :: tr, r)
      | Some ErrNoRewrite =>
          ([EvRunValueLogGC name discardRatio], Some false)
      | Some e =>
          ([EvRunValueLogGC name discardRatio;
            EvLog WarnLevel name "failed to run GC" (Some e)], Some false)
      end
  end.

Definition runGC (name : string) (discardRatio : float64)
    (flatten : go_error) (results : list go_error) : list event * option bool :=
  let '(tr, r) := runGC_loop name discardRatio results false in
  (EvLog DebugLevel name "starting badger garbage collection" None
     :: EvFlatten name 2
     :: match flatten with
        | Some e => [EvLog ErrorLevel name "failed to flatten database" (Some e)]
        | None => []
        end ++ tr, r).

End DbV1.

(** ** [db.runGC], second copy of db.go (the one with [newBadger]) *)

Module DbV2.

Fixpoint runGC_loop (name : string) (discardRatio : float64)
    (results : list go_error) (reclaimed : bool) : list event * option bool :=
  match results with
  | [] => ([], None)
  | err :: rest =>
      match err with
      | None =>
          let '(tr, r) := runGC_loop name discardRatio rest true in
          (EvRunValueLogGC name discardRatio :: tr, r)
      | Some ErrNoRewrite =>
          ([EvRunValueLogGC name discardRatio], Some reclaimed)
      | Some e =>
          ([EvRunValueLogGC name discardRatio;
            EvLog WarnLevel name "failed to run GC" (Some e)], Some false)
      end
  end.

Definition runGC (name : string) (discardRatio : float64)
    (flatten : go_error) (results : list go_error) : list event * option bool :=
  let '(tr, r) := runGC_loop name discardRatio results false in
  (EvLog DebugLevel name "starting badger garbage collection" None
     :: EvFlatten name 2
     :: match flatten with
        | Some e => [EvLog ErrorLevel name "failed to flatten database" (Some e)]
        | None => []
        end ++ tr, r).

(** One call of the function that [filepath.Walk] is given: the path, the
    size that [info.Size()] reports, and whether [err != nil]. *)
Record walk_entry : Type := mk_entry {
  w_path : string;
  w_size : Z;
  w_err : bool
}.

(** [filepath.Ext]: the suffix that begins at the final dot of the final
    element of the path, empty when there is none.  [acc] is the extension
    of the part read so far. *)
Fixpoint Ext_from (path : string) (acc : string) : string :=
  match path with
  | EmptyString => acc
  | String c rest =>
      if Ascii.eqb c "/"%char then Ext_from rest EmptyString
      else if Ascii.eqb c "."%char then Ext_from rest path
      else Ext_from rest acc
  end.

Definition Ext (path : string) : string := Ext_from path EmptyString.

(** The walk stops at the first entry for which the function returns an
    error; the error itself is dropped by [calculateDBSize]. *)
Fixpoint walk_size (entries : list walk_entry) (size : Z) : Z :=
  match entries with
  | [] => size
  | e :: rest =>
      if w_err e then size
      else if String.eqb (Ext (w_path e)) ".sst" || String.eqb (Ext (w_path e)) ".vlog"
           then walk_size rest (int64_wrap (size + w_size e))
           else walk_size rest size
  end.

(** [func calculateDBSize(path string) bytesize.ByteSize], on the entries
    found under [path]. *)
Definition calculateDBSize (entries : list walk_entry) : ByteSize :=
  walk_size entries 0.

(** What one tick of the per-database GC task reads from its environment:
    the directory at the first and at the second call of [calculateDBSize],
    the result of [Flatten] and the results of [RunValueLogGC]. *)
Record gc_env : Type := mk_gc_env {
  files_before : list walk_entry;
  flatten_res : go_error;
  gc_results : list go_error;
  files_after : list walk_entry
}.

Definition set_gc (d : db) (last : ByteSize) (count : Z) : db :=
  mk_db (name d) (has_cache d) (lsm d) (vlog d) last count.

(** The condition of the [if] in the task that [newBadger] registers. *)
Definition gc_due (gcSizeDiff : ByteSize) (d : db) (env : gc_env) : bool :=
  let diff := calculateDBSize (files_before env) - lastGC d in
  (lastGC d =? 0) || (gcSizeDiff =? 0) || (gcSizeDiff <? diff).

(** The body of the task that [newBadger] hands to [maintenanceTask]:
    the database after the tick and the calls made, or [None] while
    [runGC] has not returned. *)
Definition badgerGCTask (gcSizeDiff : ByteSize) (d : db) (env : gc_env)
    : option (db * list event) :=
  if gc_due gcSizeDiff d env then
    match runGC (name d) f64_0_7 (flatten_res env) (gc_results env) with
    | (tr, Some _) =>
        Some (set_gc d (calculateDBSize (files_after env)) (gcCount d + 1),
              tr ++ [EvGcCountInc (name d)])
    | (_, None) => None
    end
  else Some (d, []).

(** The database as [newBadger] builds it: both bookkeeping fields have
    Go's zero value. *)
Definition new_db (nm : string) (cache : bool) (l v : Z) : db :=
  mk_db nm cache l v 0 0.

End DbV2.

(** ** The orchestrator (storage.go) *)

Module Orchestrator.

(** The fields of [config.Server] that the tasks read. *)
Record config : Type := mk_config {
  CacheEvictThreshold : float64;
  CacheEvictVolume : float64
}.

Record Storage : Type := mk_Storage {
  cfg : config;
  segments : db;
  dimensions : db;
  dicts : db;
  trees : db;
  main : db;
  size : ByteSize
}.

Definition set_size (s : Storage) (n : ByteSize) : Storage :=
  mk_Storage (cfg s) (segments s) (dimensions s) (dicts s) (trees s) (main s) n.

(** [func (s *Storage) databases() []*db]: order matters. *)
Definition databases (s : Storage) : list db :=
  [main s; dimensions s; segments s; dicts s; trees s].

(** [func (s *Storage) DiskUsage() map[string]bytesize.ByteSize] *)
Definition DiskUsage (s : Storage) : gmap string ByteSize :=
  foldl (fun m d => <[name d := db_size d]> m) ∅ (databases s).

(** The sum of the values of a map ([for _, v := range m { n += v }]). *)
Definition map_sum (m : gmap string ByteSize) : ByteSize :=
  map_fold (fun _ v n => n + v) 0 m.

(** A task body: a change of the orchestrator together with the calls made. *)
Definition task : Type := Storage -> Storage * list event.

(** [func (s *Storage) watchDBSize(diff bytesize.ByteSize, f func()) func()] *)
Definition watchDBSize (diff : ByteSize) (f : task) : task :=
  fun s =>
    let n := map_sum (DiskUsage s) in
    if (diff =? 0) || (diff <? n - size s)
    then f (set_size s n)
    else (s, []).

(** Modelled from the spec: [Storage.CollectGarbage] is not part of the
    sources at hand; it is the full garbage-collection pass across all
    databases, and it leaves the recorded aggregate size alone. *)
Definition CollectGarbage : task := fun s => (s, [EvCollectGarbage]).

(** [func (s *Storage) evictionTask(memTotal uint64) func()]; [alloc] is
    what [runtime.ReadMemStats] stores in [m.Alloc]. *)
Definition evictionTask (memTotal : Z) (alloc : Z) : task :=
  fun s =>
    let used := f64_div (float64_of_uint alloc) (float64_of_uint memTotal) in
    let percent := CacheEvictVolume (cfg s) in
    if f64_ltb used (CacheEvictThreshold (cfg s))
    then (s, [])
    else (s, [EvCacheEvict (name (trees s)) percent;
              EvCacheWriteBack (name (dicts s));
              EvCacheWriteBack (name (dimensions s));
              EvCacheWriteBack (name (segments s));
              EvRuntimeGC]).

(** [func (s *Storage) writeBackTask()] *)
Definition writeBackTask : task :=
  fun s =>
    (s, omap (fun d => if has_cache d then Some (EvCacheWriteBack (name d)) else None)
             (databases s)).

End Orchestrator.

(** ** [periodicTask] and [maintenanceTask] (storage.go), one task alone *)

Module Periodic.

(** The case that a blocking [select] of the loop takes: the runtime
    chooses among the channels that are ready. *)
Inductive select_case : Type := CaseStop | CaseTimer.

(** What a task does, step by step; [A] is the type of the calls that the
    task body makes. *)
Inductive pevent (A : Type) : Type :=
| NewTimer (interval : Z)
| Body (calls : list A)
| TimerReset (interval : Z)
| TimerStop
| WgDone.

Arguments NewTimer {A} interval.
Arguments Body {A} calls.
Arguments TimerReset {A} interval.
Arguments TimerStop {A}.
Arguments WgDone {A}.

(** The deferred function of [periodicTask]. *)
Definition deferred {A : Type} : list (pevent A) := [TimerStop; WgDone].

(** The [for] loop; [sched] gives the case taken by each [select] in turn.
    The boolean tells whether the task has returned: when [sched] is used
    up the task is blocked in its [select]. *)
Fixpoint periodicTask_loop {A : Type} (interval : Z) (f : list A)
    (sched : list select_case) : list (pevent A) * bool :=
  match sched with
  | [] => ([], false)
  | CaseStop :: _ => (deferred, true)
  | CaseTimer :: rest =>
      let '(tr, returned) := periodicTask_loop interval f rest in
      (Body f :: TimerReset interval :: tr, returned)
  end.

(** [func (s *Storage) periodicTask(interval time.Duration, f func())];
    [stopped] tells whether the stop channel is closed when the first
    [select] (the one with a [default]) is evaluated. *)
Definition periodicTask {A : Type} (interval : Z) (f : list A)
    (stopped : bool) (sched : list select_case) : list (pevent A) * bool :=
  if stopped then (NewTimer interval :: deferred, true)
  else
    let '(tr, returned) := periodicTask_loop interval f sched in
    (NewTimer interval :: Body f :: tr, returned).

(** Calls of a maintenance task body: the mutex around the calls of [f]. *)
Inductive mcall (A : Type) : Type :=
| Lock
| Call (a : A)
| Unlock.

Arguments Lock {A}.
Arguments Call {A} a.
Arguments Unlock {A}.

(** [func (s *Storage) maintenanceTask(interval time.Duration, f func())] *)
Definition maintenanceTask {A : Type} (interval : Z) (f : list A)
    (stopped : bool) (sched : list select_case)
    : list (pevent (mcall A)) * bool :=
  periodicTask interval (Lock :: map Call f ++ [Unlock]) stopped sched.

(** The number of times the body has run. *)
Fixpoint body_runs {A : Type} (tr : list (pevent A)) : nat :=
  match tr with
  | [] => 0%nat
  | Body _ :: rest => S (body_runs rest)
  | _ :: rest => body_runs rest
  end.

(** The timer expiries that a schedule holds before its first stop case. *)
Fixpoint timer_rounds (sched : list select_case) : nat :=
  match sched with
  | CaseTimer :: rest => S (timer_rounds rest)
  | _ => 0%nat
  end.

End Periodic.

(** ** The tasks together: the stop channel and the maintenance mutex *)

Module Maintenance.

(** The goroutines that run [periodicTask]: the three that [New] starts
    through [maintenanceTask], the one per database that [newBadger] hands
    to [maintenanceTask], and the metrics task, which [New] starts through
    [periodicTask] itself. *)
Inductive task_id : Type :=
| GCWatch
| Eviction
| WriteBack
| BadgerGC (db : string)
| UpdateMetrics.

#[global] Instance task_id_eq_dec : EqDecision task_id.
Proof. solve_decision. Defined.

Definition is_maintenance (t : task_id) : bool :=
  match t with
  | UpdateMetrics => false
  | _ => true
  end.

(** Where a task is in [periodicTask]. *)
Inductive pc : Type :=
| AtStart      (* at the first select *)
| Locking      (* in s.maintenance.Lock() *)
| InBody       (* in f() *)
| Unlocking    (* f() has returned, the deferred Unlock is next *)
| Selecting    (* in the select of the loop *)
| Returned.

Record state : Type := mk_state {
  stop : bool;            (* the stop channel is closed *)
  mutex : bool;           (* s.maintenance is locked *)
  pcs : task_id -> pc
}.

Definition init : state := mk_state false false (fun _ => AtStart).

(** The task goes on to run its function: through the mutex for a
    maintenance task, at once for the metrics task. *)
Definition enter (t : task_id) : pc :=
  if is_maintenance t then Locking else InBody.

Definition leave (t : task_id) : pc :=
  if is_maintenance t then Unlocking else Selecting.

Inductive step : state -> state -> Prop :=
| step_close st mu p :
    (* Close: close(s.stop) *)
    step (mk_state st mu p) (mk_state true mu p)
| step_start_stop mu p t :
    p t = AtStart ->
    step (mk_state true mu p) (mk_state true mu (<[t := Returned]> p))
| step_start_default mu p t :
    p t = AtStart ->
    step (mk_state false mu p) (mk_state false mu (<[t := enter t]> p))
| step_lock st p t :
    p t = Locking ->
    step (mk_state st false p) (mk_state st true (<[t := InBody]> p))
| step_body_returns st mu p t :
    p t = InBody ->
    step (mk_state st mu p) (mk_state st mu (<[t := leave t]> p))
| step_unlock st mu p t :
    p t = Unlocking ->
    step (mk_state st mu p) (mk_state st false (<[t := Selecting]> p))
| step_select_stop mu p t :
    p t = Selecting ->
    step (mk_state true mu p) (mk_state true mu (<[t := Returned]> p))
| step_select_timer st mu p t :
    p t = Selecting ->
    step (mk_state st mu p) (mk_state st mu (<[t := enter t]> p)).

Inductive reachable : state -> Prop :=
| reach_init : reachable init
| reach_step s s' : reachable s -> step s s' -> reachable s'.

(** The task is inside its function [f]. *)
Definition running (s : state) (t : task_id) : Prop := pcs s t = InBody.

(** The task is between [Lock] and [Unlock]. *)
Definition holds (p : task_id -> pc) (t : task_id) : Prop :=
  p t = InBody \/ p t = Unlocking.

Definition mutex_inv (s : state) : Prop :=
  (forall t1 t2, is_maintenance t1 = true -> is_maintenance t2 = true ->
                 holds (pcs s) t1 -> holds (pcs s) t2 -> t1 = t2) /\
  (forall t, is_maintenance t = true -> holds (pcs s) t -> mutex s = true) /\
  (forall t, is_maintenance t = false -> pcs s t <> Locking /\ pcs s t <> Unlocking).

End Maintenance.

(** ** [Storage.Close], [Storage.goDB] (storage.go) and [db.close] (db.go) *)

Module Shutdown.

(** The five databases of the orchestrator. *)
Inductive dbid : Type := Main | Dimensions | Segments | Dicts | Trees.

#[global] Instance dbid_eq_dec : EqDecision dbid.
Proof. solve_decision. Defined.

(** [s.databases()] *)
Definition databases : list dbid := [Main; Dimensions; Segments; Dicts; Trees].

(** [New] gives every database but [main] a codec, hence a cache. *)
Definition has_cache (d : dbid) : bool :=
  match d with
  | Main => false
  | _ => true
  end.

(** The calls that [Close] and the goroutines of [goDB] make. *)
Inductive cevent : Type :=
| CloseStop
| LogDebug (msg : string)
| CacheFlush (d : dbid)
| DBClose (d : dbid)
| LogCloseError (d : dbid).

(** Where a call of [d.close()] is. *)
Inductive close_pc : Type :=
| CStart          (* at [if d.Cache != nil] *)
| CFlush          (* at [d.Cache.Flush()] *)
| CEngineClose    (* at [d.DB.Close()] *)
| CLogError       (* at the logging of the error *)
| CReturned.

#[global] Instance close_pc_eq_dec : EqDecision close_pc.
Proof. solve_decision. Defined.

(** One step of [func (d *db) close()]; [fails d] tells whether
    [d.DB.Close()] returns an error. *)
Definition close_step (fails : dbid -> bool) (d : dbid) (c : close_pc)
    : option (close_pc * list cevent) :=
  match c with
  | CStart => Some (if has_cache d then CFlush else CEngineClose, [])
  | CFlush => Some (CEngineClose, [CacheFlush d])
  | CEngineClose => Some (if fails d then CLogError else CReturned, [DBClose d])
  | CLogError => Some (CReturned, [LogCloseError d])
  | CReturned => None
  end.

(** Where the goroutine that [goDB] starts for a database is. *)
Inductive gpc : Type :=
| GNotStarted
| GEntry                   (* at [f(db)], that is at [if d != s.dicts] *)
| GClosing (c : close_pc)  (* in [d.close()] *)
| GDefer                   (* at the deferred [wg.Done()] *)
| GExit.

#[global] Instance gpc_eq_dec : EqDecision gpc.
Proof. solve_decision. Defined.

(** Where the goroutine that called [Close] is. *)
Inductive mpc : Type :=
| MCloseStop               (* at [close(s.stop)] *)
| MTasksWait               (* in [s.wg.Wait()] *)
| MGoDB                    (* at the call of [goDB], before [wg.Add] *)
| MSpawn (todo : list dbid)  (* in the [for] loop of [goDB] *)
| MWgWait                  (* in [wg.Wait()] of [goDB] *)
| MDicts (c : close_pc)    (* in [s.dicts.close()] *)
| MReturned.

Record state : Type := mk_state {
  m : mpc;
  g : dbid -> gpc;
  wg : Z;                       (* the counter of the WaitGroup of [goDB] *)
  tasks : nat;                  (* periodic tasks that have not returned *)
  trace : list cevent;
  result : option go_error      (* what [Close] returned, once it has *)
}.

(** [Close] is called while the [tasks] periodic tasks are running. *)
Definition init (tasks : nat) : state :=
  mk_state MCloseStop (fun _ => GNotStarted) 0 tasks [] None.

Inductive step (fails : dbid -> bool) : state -> state -> Prop :=
| step_close_stop gs w n tr r :
    step fails (mk_state MCloseStop gs w n tr r)
      (mk_state MTasksWait gs w n
         (tr ++ [CloseStop; LogDebug "waiting for storage tasks to finish"]) r)
| step_task_returns gs w n tr r :
    (* a periodic task sees the closed channel and returns *)
    step fails (mk_state MTasksWait gs w (S n) tr r)
      (mk_state MTasksWait gs w n tr r)
| step_tasks_waited gs w tr r :
    step fails (mk_state MTasksWait gs w O tr r)
      (mk_state MGoDB gs w O (tr ++ [LogDebug "storage tasks to finished"]) r)
| step_wg_add gs w n tr r :
    step fails (mk_state MGoDB gs w n tr r)
      (mk_state (MSpawn databases) gs (w + Z.of_nat (length databases)) n tr r)
| step_go d todo gs w n tr r :
    step fails (mk_state (MSpawn (d :: todo)) gs w n tr r)
      (mk_state (MSpawn todo) (<[d := GEntry]> gs) w n tr r)
| step_loop_end gs w n tr r :
    step fails (mk_state (MSpawn []) gs w n tr r)
      (mk_state MWgWait gs w n tr r)
| step_wg_waited gs n tr r :
    step fails (mk_state MWgWait gs 0 n tr r)
      (mk_state (MDicts CStart) gs 0 n tr r)
| step_dicts_close c c' evs gs w n tr r :
    close_step fails Dicts c = Some (c', evs) ->
    step fails (mk_state (MDicts c) gs w n tr r)
      (mk_state (MDicts c') gs w n (tr ++ evs) r)
| step_return gs w n tr r :
    step fails (mk_state (MDicts CReturned) gs w n tr r)
      (mk_state MReturned gs w n tr (Some None))
| step_g_entry d mp gs w n tr r :
    gs d = GEntry ->
    step fails (mk_state mp gs w n tr r)
      (mk_state mp
         (<[d := if decide (d = Dicts) then GDefer else GClosing CStart]> gs)
         w n tr r)
| step_g_close d c c' evs mp gs w n tr r :
    gs d = GClosing c ->
    close_step fails d c = Some (c', evs) ->
    step fails (mk_state mp gs w n tr r)
      (mk_state mp (<[d := GClosing c']> gs) w n (tr ++ evs) r)
| step_g_closed d mp gs w n tr r :
    gs d = GClosing CReturned ->
    step fails (mk_state mp gs w n tr r)
      (mk_state mp (<[d := GDefer]> gs) w n tr r)
| step_g_done d mp gs w n tr r :
    gs d = GDefer ->
    step fails (mk_state mp gs w n tr r)
      (mk_state mp (<[d := GExit]> gs) (w - 1) n tr r).

(** Executions of [k] steps. *)
Inductive run (fails : dbid -> bool) : nat -> state -> state -> Prop :=
| run_O s : run fails O s s
| run_S k s s' s'' : run fails k s s' -> step fails s' s'' -> run fails (S k) s s''.

(** Who makes the next step: the caller of [Close], a periodic task, or the
    goroutine of a database. *)
Inductive choice : Type :=
| ByMain
| ByTask
| ByGor (d : dbid).

(** The step that [c] makes in [s], when it can make one. *)
Definition step_fn (fails : dbid -> bool) (c : choice) (s : state) : option state :=
  match c with
  | ByMain =>
      match m s with
      | MCloseStop =>
          Some (mk_state MTasksWait (g s) (wg s) (tasks s)
                  (trace s ++ [CloseStop; LogDebug "waiting for storage tasks to finish"])
                  (result s))
      | MTasksWait =>
          match tasks s with
          | O => Some (mk_state MGoDB (g s) (wg s) O
                         (trace s ++ [LogDebug "storage tasks to finished"]) (result s))
          | S _ => None
          end
      | MGoDB =>
          Some (mk_state (MSpawn databases) (g s)
                  (wg s + Z.of_nat (length databases)) (tasks s) (trace s) (result s))
      | MSpawn (d :: todo) =>
          Some (mk_state (MSpawn todo) (<[d := GEntry]> (g s)) (wg s) (tasks s)
                  (trace s) (result s))
      | MSpawn [] =>
          Some (mk_state MWgWait (g s) (wg s) (tasks s) (trace s) (result s))
      | MWgWait =>
          if decide (wg s = 0)
          then Some (mk_state (MDicts CStart) (g s) 0 (tasks s) (trace s) (result s))
          else None
      | MDicts c =>
          match close_step fails Dicts c with
          | Some (c', evs) =>
              Some (mk_state (MDicts c') (g s) (wg s) (tasks s) (trace s ++ evs) (result s))
          | None =>
              Some (mk_state MReturned (g s) (wg s) (tasks s) (trace s) (Some None))
          end
      | MReturned => None
      end
  | ByTask =>
      match m s, tasks s with
      | MTasksWait, S n =>
          Some (mk_state MTasksWait (g s) (wg s) n (trace s) (result s))
      | _, _ => None
      end
  | ByGor d =>
      match g s d with
      | GEntry =>
          Some (mk_state (m s)
                  (<[d := if decide (d = Dicts) then GDefer else GClosing CStart]> (g s))
                  (wg s) (tasks s) (trace s) (result s))
      | GClosing c =>
          match close_step fails d c with
          | Some (c', evs) =>
              Some (mk_state (m s) (<[d := GClosing c']> (g s)) (wg s) (tasks s)
                      (trace s ++ evs) (result s))
          | None =>
              Some (mk_state (m s) (<[d := GDefer]> (g s)) (wg s) (tasks s)
                      (trace s) (result s))
          end
      | GDefer =>
          Some (mk_state (m s) (<[d := GExit]> (g s)) (wg s - 1) (tasks s)
                  (trace s) (result s))
      | GNotStarted | GExit => None
      end
  end.

(** The execution that a schedule picks. *)
Fixpoint exec (fails : dbid -> bool) (cs : list choice) (s : state) : option state :=
  match cs with
  | [] => Some s
  | c :: rest =>
      match step_fn fails c s with
      | Some s' => exec fails rest s'
      | None => None
      end
  end.

(** A schedule: the tasks return, every goroutine is started, and they run
    one after the other, trees first; then the caller goes on. *)
Definition sample_schedule : list choice :=
  [ByMain; ByTask; ByTask; ByTask; ByTask; ByMain; ByMain]
  ++ replicate 6 ByMain
  ++ replicate 7 (ByGor Trees)
  ++ replicate 2 (ByGor Dicts)
  ++ replicate 5 (ByGor Main)
  ++ replicate 6 (ByGor Segments)
  ++ replicate 6 (ByGor Dimensions)
  ++ replicate 5 ByMain.

(** Closing the engine of the trees database fails, the others succeed. *)
Definition trees_fails (d : dbid) : bool :=
  match d with
  | Trees => true
  | _ => false
  end.

Definition sample_final : state :=
  default (init 4) (exec trees_fails sample_schedule (init 4)).

(** [d.close()] has run to its end: the engine was closed, after the flush
    of the cache when there is one, and a failure was logged. *)
Definition close_completed (fails : dbid -> bool) (d : dbid)
    (tr : list cevent) : Prop :=
  In (DBClose d) tr /\
  (has_cache d = true -> In (CacheFlush d) tr) /\
  (fails d = true -> In (LogCloseError d) tr).

(** A call made by the close of the dictionaries database. *)
Definition is_dicts_close (ev : cevent) : Prop :=
  ev = CacheFlush Dicts \/ ev = DBClose Dicts \/ ev = LogCloseError Dicts.

(** Whatever the dictionaries database's close does comes after the
    completed close of each of the other databases. *)
Definition dicts_last (fails : dbid -> bool) (tr : list cevent) : Prop :=
  forall pre ev post,
    tr = pre ++ ev :: post -> is_dicts_close ev ->
    forall d, d <> Dicts -> close_completed fails d pre.

(** What the trace holds when [d.close()] is at [c]. *)
Definition close_upto (fails : dbid -> bool) (d : dbid) (c : close_pc)
    (tr : list cevent) : Prop :=
  match c with
  | CStart | CFlush => True
  | CEngineClose => has_cache d = true -> In (CacheFlush d) tr
  | CLogError =>
      In (DBClose d) tr /\ (has_cache d = true -> In (CacheFlush d) tr)
  | CReturned => close_completed fails d tr
  end.

(** Goroutines that have not called [wg.Done()]. *)
Definition alive (x : gpc) : Z :=
  match x with
  | GExit => 0
  | _ => 1
  end.

Definition live (gs : dbid -> gpc) : Z :=
  foldr (fun d k => alive (gs d) + k) 0 databases.

(** Steps that are left, at most. *)
Definition crank (c : close_pc) : nat :=
  match c with
  | CStart => 4
  | CFlush => 3
  | CEngineClose => 2
  | CLogError => 1
  | CReturned => 0
  end.

Definition grank (x : gpc) : nat :=
  match x with
  | GNotStarted => 9
  | GEntry => 8
  | GClosing c => 2 + crank c
  | GDefer => 1
  | GExit => 0
  end.

Definition mrank (p : mpc) : nat :=
  match p with
  | MCloseStop => 20
  | MTasksWait => 19
  | MGoDB => 18
  | MSpawn todo => 12 + length todo
  | MWgWait => 11
  | MDicts c => 1 + crank c
  | MReturned => 0
  end.

Definition gsum (gs : dbid -> gpc) : nat :=
  foldr (fun d k => (grank (gs d) + k)%nat) 0%nat databases.

Definition measure (s : state) : nat :=
  (mrank (m s) + gsum (g s) + tasks s)%nat.

(** [tr'] continues [tr]. *)
Definition extends (tr tr' : list cevent) : Prop := exists evs, tr' = tr ++ evs.

(** The invariant of the executions of [Close]. *)
Definition main_inv (fails : dbid -> bool) (s : state) : Prop :=
  match m s with
  | MCloseStop | MTasksWait | MGoDB =>
      wg s = 0 /\ forall d, g s d = GNotStarted
  | MSpawn todo =>
      (exists started, databases = started ++ todo) /\
      (forall d, In d todo -> g s d = GNotStarted) /\
      (forall d, ~ In d todo -> g s d <> GNotStarted) /\
      wg s = live (g s)
  | MWgWait =>
      (forall d, g s d <> GNotStarted) /\ wg s = live (g s)
  | MDicts c =>
      (forall d, g s d = GExit) /\ close_upto fails Dicts c (trace s) /\
      (c = CLogError -> fails Dicts = true)
  | MReturned =>
      (forall d, g s d = GExit) /\ close_completed fails Dicts (trace s)
  end.

Definition gor_inv (fails : dbid -> bool) (s : state) (d : dbid) : Prop :=
  match g s d with
  | GNotStarted | GEntry => True
  | GClosing c =>
      d <> Dicts /\ close_upto fails d c (trace s) /\
      (c = CLogError -> fails d = true)
  | GDefer | GExit => d <> Dicts -> close_completed fails d (trace s)
  end.

Definition before_dicts (p : mpc) : bool :=
  match p with
  | MDicts _ | MReturned => false
  | _ => true
  end.

Definition inv (fails : dbid -> bool) (s : state) : Prop :=
  main_inv fails s /\
  (forall d, gor_inv fails s d) /\
  (before_dicts (m s) = true -> forall ev, In ev (trace s) -> ~ is_dicts_close ev) /\
  (result s = match m s with MReturned => Some None | _ => None end) /\
  (m s <> MCloseStop -> m s <> MTasksWait -> tasks s = O) /\
  dicts_last fails (trace s).

End Shutdown.

(** ** [New] (storage.go) and [Storage.newBadger] (second copy of db.go) *)

Module Construction.

(** The calls of [New] that can fail. *)
Inductive op : Type :=
| OpMkdirAll (db : string)     (* os.MkdirAll of the directory of [db] *)
| OpBadgerOpen (db : string)   (* badger.Open *)
| OpMigrate                    (* s.migrate() *)
| OpGetMemTotal.               (* getMemTotal() *)

#[global] Instance op_eq_dec : EqDecision op.
Proof. solve_decision. Defined.

(** What the calls return. *)
Record env : Type := mk_env {
  outcome : op -> go_error;
  memTotal : Z;
  engine_size : string -> Z * Z
}.

(** What [New] has done outside of its return values. *)
Record world : Type := mk_world {
  calls : list op;                          (* the fallible calls made, in order *)
  open_handles : list string;               (* engines opened *)
  closed_handles : list string;             (* engines closed *)
  inline : list Maintenance.task_id;        (* periodic tasks entered by a plain call *)
  started : list Maintenance.task_id;       (* goroutines of the go statements of New *)
  wg_tasks : Z                              (* the counter of s.wg *)
}.

Definition empty_world : world := mk_world [] [] [] [] [] 0.

(** How a call ends: with a value, with an error, or not at all. *)
Inductive res (A : Type) : Type :=
| Ok (a : A)
| Err (e : error)
| Blocked.

Arguments Ok {A} a.
Arguments Err {A} e.
Arguments Blocked {A}.

(** State, early return with an error, and calls that do not return. *)
Definition M (A : Type) : Type := world -> res A * world.

Definition ret {A : Type} (a : A) : M A := fun w => (Ok a, w).

Definition bind {A B : Type} (c : M A) (k : A -> M B) : M B :=
  fun w =>
    match c w with
    | (Ok a, w') => k a w'
    | (Err e, w') => (Err e, w')
    | (Blocked, w') => (Blocked, w')
    end.

Notation "'let!' x ':=' c 'in' k" := (bind c (fun x => k))
  (at level 10, x name, c at level 100, k at level 200).

(** [if err := call; err != nil { return nil, err }] *)
Definition call (e : env) (o : op) : M unit :=
  fun w =>
    let w' := mk_world (calls w ++ [o]) (open_handles w) (closed_handles w)
                (inline w) (started w) (wg_tasks w) in
    match outcome e o with
    | Some err => (Err err, w')
    | None => (Ok tt, w')
    end.

Definition opened (nm : string) : M unit :=
  fun w => (Ok tt, mk_world (calls w) (open_handles w ++ [nm]) (closed_handles w)
                     (inline w) (started w) (wg_tasks w)).

(** [s.maintenanceTask(interval, f)] as a plain call, the way [newBadger]
    makes it (there is no [go] in front of it): the caller runs
    [periodicTask] itself, and [periodicTask] returns through
    [case <-s.stop] only.  [New] makes the channel ([stop: make(chan
    struct{})]) and [Close] alone closes it, which takes the [Storage] that
    [New] has not returned yet; so the call does not return, and the task
    runs in the goroutine of the caller from here on. *)
Definition maintenanceTask (t : Maintenance.task_id) : M unit :=
  fun w => (Blocked, mk_world (calls w) (open_handles w) (closed_handles w)
                       (inline w ++ [t]) (started w) (wg_tasks w)).

(** [go s.maintenanceTask(...)] and [go s.periodicTask(...)]: the task gets
    a goroutine of its own and the caller goes on. *)
Definition go (t : Maintenance.task_id) : M unit :=
  fun w => (Ok tt, mk_world (calls w) (open_handles w) (closed_handles w)
                     (inline w) (started w ++ [t]) (wg_tasks w)).

Definition wg_add (k : Z) : M unit :=
  fun w => (Ok tt, mk_world (calls w) (open_handles w) (closed_handles w)
                     (inline w) (started w) (wg_tasks w + k)).

(** [func (s *Storage) newBadger(name string, p prefix, codec cache.Codec)];
    [codec] tells whether the codec is non-nil. *)
Definition newBadger (e : env) (nm : string) (p : Prefix.prefix) (codec : bool)
    : M db :=
  let! _ := call e (OpMkdirAll nm) in
  let! _ := call e (OpBadgerOpen nm) in
  let! _ := opened nm in
  let! _ := maintenanceTask (Maintenance.BadgerGC nm) in
  ret (DbV2.new_db nm codec (fst (engine_size e nm)) (snd (engine_size e nm))).

Definition New_body (e : env) (c : Orchestrator.config) : M Orchestrator.Storage :=
  let! main := newBadger e "main" [] false in
  let! dicts := newBadger e "dicts" Prefix.dictionaryPrefix true in
  let! dimensions := newBadger e "dimensions" Prefix.dimensionPrefix true in
  let! segments := newBadger e "segments" Prefix.segmentPrefix true in
  let! trees := newBadger e "trees" Prefix.treePrefix true in
  (* s.labels = labels.New(s.main.DB): no error is returned *)
  let! _ := call e OpMigrate in
  let! _ := call e OpGetMemTotal in
  let! _ := wg_add 4 in
  let! _ := go Maintenance.GCWatch in
  let! _ := go Maintenance.Eviction in
  let! _ := go Maintenance.WriteBack in
  let! _ := go Maintenance.UpdateMetrics in
  ret (Orchestrator.mk_Storage c segments dimensions dicts trees main 0).

(** What a caller of [New] gets: the pointer to the [Storage] and the
    error, or nothing when [New] does not return. *)
Inductive answer : Type :=
| Returned (s : option Orchestrator.Storage) (err : go_error)
| NoReturn.

(** [func New(c, logger, reg)] *)
Definition New (e : env) (c : Orchestrator.config) (w : world) : answer * world :=
  match New_body e c w with
  | (Ok s, w') => (Returned (Some s) None, w')
  | (Err err, w') => (Returned None (Some err), w')
  | (Blocked, w') => (NoReturn, w')
  end.

(** The fallible calls that the text of [New] makes, in its order. *)
Definition steps : list op :=
  [OpMkdirAll "main"; OpBadgerOpen "main";
   OpMkdirAll "dicts"; OpBadgerOpen "dicts";
   OpMkdirAll "dimensions"; OpBadgerOpen "dimensions";
   OpMkdirAll "segments"; OpBadgerOpen "segments";
   OpMkdirAll "trees"; OpBadgerOpen "trees";
   OpMigrate; OpGetMemTotal].

(** The engines that a sequence of successful calls has opened. *)
Definition opened_by (pre : list op) : list string :=
  omap (fun o => match o with OpBadgerOpen nm => Some nm | _ => None end) pre.

(** A database is released when its engine handle has been closed. *)
Definition released (w : world) (nm : string) : Prop := In nm (closed_handles w).

(** The periodic tasks that are running, in whatever goroutine. *)
Definition running (w : world) : list Maintenance.task_id := inline w ++ started w.

(** An environment in which opening the dictionaries engine fails and
    everything else succeeds. *)
Definition env_dicts_fails : env :=
  mk_env (fun o => if decide (o = OpBadgerOpen "dicts")
                   then Some (ErrOther "cannot open") else None)
         8589934592 (fun _ => (0, 0)).

(** An environment in which the engine of the main database cannot be
    opened. *)
Definition env_main_fails : env :=
  mk_env (fun o => if decide (o = OpBadgerOpen "main")
                   then Some (ErrOther "cannot open") else None)
         8589934592 (fun _ => (0, 0)).

Definition some_config : Orchestrator.config :=
  Orchestrator.mk_config (S754_finite false 6305039478318694 (-53))
                         (S754_finite false 7205759403792794 (-56)).

End Construction.

(** ** Traces and sample values that the statements below refer to *)

(** The calls made while the engine keeps answering [nil]. *)
Definition gc_calls (nm : string) (ratio : float64) (k : nat) : list event :=
  replicate k (EvRunValueLogGC nm ratio).

(** The head of the trace of [runGC]: the debug line and [Flatten(2)]. *)
Definition gc_head (nm : string) (flatten : go_error) : list event :=
  EvLog DebugLevel nm "starting badger garbage collection" None
    :: EvFlatten nm 2
    :: match flatten with
       | Some e => [EvLog ErrorLevel nm "failed to flatten database" (Some e)]
       | None => []
       end.

(** The calls of one reclaim pass of database [nm] that makes [k]
    successful value-log GC calls before the engine answers [e]. *)
Definition reclaim_pass (nm : string) (flatten : go_error) (k : nat) (e : error)
    : list event :=
  gc_head nm flatten ++ gc_calls nm f64_0_7 (S k) ++
    match e with
    | ErrNoRewrite => []
    | _ => [EvLog WarnLevel nm "failed to run GC" (Some e)]
    end.

Definition tick_on_empty_dir : DbV2.gc_env :=
  DbV2.mk_gc_env [] None [Some ErrNoRewrite] [].

Definition tick_on_small_dir : DbV2.gc_env :=
  DbV2.mk_gc_env
    [DbV2.mk_entry "/data/main" 4096 false;
     DbV2.mk_entry "/data/main/000001.vlog" 50 false;
     DbV2.mk_entry "/data/main/MANIFEST" 16 false]
    None [Some ErrNoRewrite]
    [DbV2.mk_entry "/data/main" 4096 false;
     DbV2.mk_entry "/data/main/000001.vlog" 50 false;
     DbV2.mk_entry "/data/main/MANIFEST" 16 false].

(** An orchestrator with the names that [New] gives to its databases. *)
Definition sample_storage (baseline : ByteSize) : Orchestrator.Storage :=
  Orchestrator.mk_Storage
    (Orchestrator.mk_config (S754_finite false 4503599627370496 (-53))
                            (S754_finite false 7205759403792794 (-56)))
    (mk_db "segments" true 300 40 0 0)
    (mk_db "dimensions" true 200 30 0 0)
    (mk_db "dicts" true 100 20 0 0)
    (mk_db "trees" true 5000 1000 0 0)
    (mk_db "main" false 10 1 0 0)
    baseline.

(** One round of the loop: the body, then the timer is set again. *)
Definition round {A : Type} (interval : Z) (f : list A) : list (Periodic.pevent A) :=
  [Periodic.Body f; Periodic.TimerReset interval].

(** The aggregate GC task has taken the mutex and runs its function. *)
Definition gc_in_body : Maintenance.state :=
  Maintenance.mk_state false true
    (<[Maintenance.GCWatch := Maintenance.InBody]>
       (<[Maintenance.GCWatch := Maintenance.enter Maintenance.GCWatch]>
          (fun _ => Maintenance.AtStart))).

(** The same, and the metrics task runs its function as well. *)
Definition gc_and_metrics_in_body : Maintenance.state :=
  Maintenance.mk_state false true
    (<[Maintenance.UpdateMetrics := Maintenance.enter Maintenance.UpdateMetrics]>
       (Maintenance.pcs gc_in_body)).

(** ** The read-only queries, the metrics task and runs of ticks *)

Module Stats.

(** [float64(x)] for a signed integer [x]. *)
Definition float64_of_int (x : Z) : float64 :=
  binary_normalize prec64 emax64 x 0 false.

(** [func (s *Storage) CacheStats() map[string]uint64]; [csize d] is what
    [d.Cache.Size()] reports. *)
Definition CacheStats (csize : db -> Z) (s : Orchestrator.Storage) : gmap string Z :=
  foldl (fun acc d => if has_cache d then <[name d := csize d]> acc else acc)
        ∅ (Orchestrator.databases s).

(** The two gauge vectors of [metrics] that the metrics task sets, by label. *)
Record gauges : Type := mk_gauges {
  dbSize : gmap string float64;
  cacheSize : gmap string float64
}.

(** The body of the loop of [updateMetricsTask] for one database. *)
Definition update_db (csize : db -> Z) (gs : gauges) (d : db) : gauges :=
  let sizes := <[name d := float64_of_int (db_size d)]> (dbSize gs) in
  if has_cache d
  then mk_gauges sizes (<[name d := float64_of_uint (csize d)]> (cacheSize gs))
  else mk_gauges sizes (cacheSize gs).

(** [func (s *Storage) updateMetricsTask()] *)
Definition updateMetricsTask (csize : db -> Z) (s : Orchestrator.Storage)
    (gs : gauges) : gauges :=
  foldl (update_db csize) gs (Orchestrator.databases s).

(** One round of a loop that fills a map by database name: [kv d] is the
    value for [d], when the loop body stores one. *)
Definition put {V : Type} (kv : db -> option V) (acc : gmap string V) (d : db)
    : gmap string V :=
  match kv d with
  | Some v => <[name d := v]> acc
  | None => acc
  end.

(** The orchestrator with the databases as they are seen at a tick. *)
Definition observe (s obs : Orchestrator.Storage) : Orchestrator.Storage :=
  Orchestrator.mk_Storage (Orchestrator.cfg s)
    (Orchestrator.segments obs) (Orchestrator.dimensions obs)
    (Orchestrator.dicts obs) (Orchestrator.trees obs) (Orchestrator.main obs)
    (Orchestrator.size s).

(** Ticks of the aggregate GC task in sequence; [obs] gives the databases
    as each tick finds them.  The result is the orchestrator after the last
    tick and the calls of all the ticks. *)
Fixpoint watch_ticks (diff : ByteSize) (s : Orchestrator.Storage)
    (obs : list Orchestrator.Storage) : Orchestrator.Storage * list event :=
  match obs with
  | [] => (s, [])
  | o :: rest =>
      let '(s1, tr1) :=
        Orchestrator.watchDBSize diff Orchestrator.CollectGarbage (observe s o) in
      let '(s2, tr2) := watch_ticks diff s1 rest in
      (s2, tr1 ++ tr2)
  end.

(** The prefixes that [New] gives to the databases that have one. *)
Definition prefixes : list Prefix.prefix :=
  [Prefix.dictionaryPrefix; Prefix.dimensionPrefix; Prefix.segmentPrefix;
   Prefix.treePrefix].

(** Neither a dot nor a separator occurs in the string. *)
Fixpoint plain (s : string) : bool :=
  match s with
  | EmptyString => true
  | String c rest =>
      negb (Ascii.eqb c "/"%char) && negb (Ascii.eqb c "."%char) && plain rest
  end.

(** Whether [calculateDBSize] counts the entry. *)
Definition counted (e : DbV2.walk_entry) : bool :=
  String.eqb (DbV2.Ext (DbV2.w_path e)) ".sst"
  || String.eqb (DbV2.Ext (DbV2.w_path e)) ".vlog".

(** The sizes of the counted entries, added up in the integers. *)
Definition counted_sum (entries : list DbV2.walk_entry) : Z :=
  foldr (fun e k => (if counted e then DbV2.w_size e else 0) + k) 0 entries.

(** A float that is not below zero: its sign bit is clear, or it is no
    number at all. *)
Definition sign_clear (f : float64) : Prop :=
  match f with
  | S754_nan => True
  | S754_zero sg | S754_infinity sg | S754_finite sg _ _ => sg = false
  end.

End Stats.

(** ** More on one periodic task *)

Module PeriodicFacts.

(** The deferred function has not run. *)
Definition before_defer {A : Type} (ev : Periodic.pevent A) : bool :=
  match ev with
  | Periodic.TimerStop | Periodic.WgDone => false
  | _ => true
  end.

(** The calls of all the body runs of a trace, in order. *)
Fixpoint body_calls {A : Type} (tr : list (Periodic.pevent A)) : list A :=
  match tr with
  | [] => []
  | Periodic.Body calls :: rest => calls ++ body_calls rest
  | _ :: rest => body_calls rest
  end.

(** The timer resets of a trace, with their intervals. *)
Fixpoint resets {A : Type} (tr : list (Periodic.pevent A)) : list Z :=
  match tr with
  | [] => []
  | Periodic.TimerReset i :: rest => i :: resets rest
  | _ :: rest => resets rest
  end.

(** Whether the mutex is held after the calls, when it was in state [held]
    before; [None] when a call of [f] is made without the mutex, the mutex
    is locked twice, or it is unlocked while free. *)
Fixpoint lock_discipline {A : Type} (calls : list (Periodic.mcall A)) (held : bool)
    : option bool :=
  match calls with
  | [] => Some held
  | Periodic.Lock :: rest => if held then None else lock_discipline rest true
  | Periodic.Call _ :: rest => if held then lock_discipline rest true else None
  | Periodic.Unlock :: rest => if held then lock_discipline rest false else None
  end.

End PeriodicFacts.

(** ** More on the tasks together *)

Module MaintenanceFacts.

(** Executions of the tasks: any number of steps. *)
Inductive steps : Maintenance.state -> Maintenance.state -> Prop :=
| steps_refl s : steps s s
| steps_step s s' s'' : Maintenance.step s s' -> steps s' s'' -> steps s s''.

(** A locked mutex has a maintenance task between [Lock] and [Unlock]. *)
Definition owned (s : Maintenance.state) : Prop :=
  Maintenance.mutex s = true ->
  exists t, Maintenance.is_maintenance t = true /\
            Maintenance.holds (Maintenance.pcs s) t.

(** A task returns only after the stop channel has been closed. *)
Definition returns_after_stop (s : Maintenance.state) : Prop :=
  forall t, Maintenance.pcs s t = Maintenance.Returned -> Maintenance.stop s = true.

(** The stop channel is closed and the aggregate GC task has seen it at
    its first [select]. *)
Definition gc_returned : Maintenance.state :=
  Maintenance.mk_state true false
    (<[Maintenance.GCWatch := Maintenance.Returned]> (fun _ => Maintenance.AtStart)).

(** The same, and the eviction task has seen it as well. *)
Definition gc_eviction_returned : Maintenance.state :=
  Maintenance.mk_state true false
    (<[Maintenance.Eviction := Maintenance.Returned]> (Maintenance.pcs gc_returned)).

End MaintenanceFacts.

(** ** More on shutdown *)

Module ShutdownFacts.

(** The database that a call is made on. *)
Definition event_db (ev : Shutdown.cevent) : option Shutdown.dbid :=
  match ev with
  | Shutdown.CacheFlush d | Shutdown.DBClose d | Shutdown.LogCloseError d => Some d
  | Shutdown.CloseStop | Shutdown.LogDebug _ => None
  end.

(** The calls of a trace that are made on [d], in order. *)
Definition calls_on (d : Shutdown.dbid) (tr : list Shutdown.cevent)
    : list Shutdown.cevent :=
  filter (fun ev => event_db ev = Some d) tr.

(** The calls that [d.close()] makes from its start to its end. *)
Definition full_close (fails : Shutdown.dbid -> bool) (d : Shutdown.dbid)
    : list Shutdown.cevent :=
  (if Shutdown.has_cache d then [Shutdown.CacheFlush d] else [])
  ++ [Shutdown.DBClose d]
  ++ (if fails d then [Shutdown.LogCloseError d] else []).

(** The calls that [d.close()] has made when it is at [c]. *)
Definition emitted (fails : Shutdown.dbid -> bool) (d : Shutdown.dbid)
    (c : Shutdown.close_pc) : list Shutdown.cevent :=
  match c with
  | Shutdown.CStart | Shutdown.CFlush => []
  | Shutdown.CEngineClose =>
      if Shutdown.has_cache d then [Shutdown.CacheFlush d] else []
  | Shutdown.CLogError =>
      (if Shutdown.has_cache d then [Shutdown.CacheFlush d] else [])
      ++ [Shutdown.DBClose d]
  | Shutdown.CReturned => full_close fails d
  end.

(** [d.close()] is at [c] only when the branch to [c] can be taken. *)
Definition pc_ok (fails : Shutdown.dbid -> bool) (d : Shutdown.dbid)
    (c : Shutdown.close_pc) : Prop :=
  (c = Shutdown.CFlush -> Shutdown.has_cache d = true) /\
  (c = Shutdown.CLogError -> fails d = true).

(** The calls made on [d] so far, read off the program counters: the
    dictionaries database is closed by the caller of [Close], the others by
    their goroutines. *)
Definition progress (fails : Shutdown.dbid -> bool) (s : Shutdown.state)
    (d : Shutdown.dbid) : list Shutdown.cevent :=
  if decide (d = Shutdown.Dicts) then
    match Shutdown.m s with
    | Shutdown.MDicts c => emitted fails d c
    | Shutdown.MReturned => full_close fails d
    | _ => []
    end
  else
    match Shutdown.g s d with
    | Shutdown.GClosing c => emitted fails d c
    | Shutdown.GDefer | Shutdown.GExit => full_close fails d
    | _ => []
    end.

Definition pcs_ok (fails : Shutdown.dbid -> bool) (s : Shutdown.state) : Prop :=
  (forall c, Shutdown.m s = Shutdown.MDicts c -> pc_ok fails Shutdown.Dicts c) /\
  (forall d c, Shutdown.g s d = Shutdown.GClosing c -> pc_ok fails d c).

(** The calls on each database are those that its close has made so far,
    and the trace begins with the closing of the stop channel. *)
Definition calls_inv (fails : Shutdown.dbid -> bool) (s : Shutdown.state) : Prop :=
  pcs_ok fails s /\
  (forall d, calls_on d (Shutdown.trace s) = progress fails s d) /\
  (match Shutdown.m s with
   | Shutdown.MCloseStop => Shutdown.trace s = []
   | _ => exists tl, Shutdown.trace s = Shutdown.CloseStop :: tl
   end).

End ShutdownFacts.


(** * Properties *)

(** ** Key prefixes *)

(** C10: for every prefix [p] and byte string [k], [trim] gives [k] without
    its first [len(p)] bytes and [true] when [k] is strictly longer than
    [p], whatever those bytes are, and gives [(nil, false)] otherwise;
    hence [trim (key s)] gives back [(s, true)] for every non-empty [s]. *)
Theorem prefix_trim_spec (p : Prefix.prefix) (k : list byte) :
  ((length p < length k)%nat -> Prefix.trim p k = (drop (length p) k, true)) /\
  ((length k <= length p)%nat -> Prefix.trim p k = ([], false)) /\
  (forall s : list byte, s <> [] -> Prefix.trim p (Prefix.key p s) = (s, true)).
Proof.
  unfold Prefix.trim, Prefix.key. repeat split.
  - intros Hlt. destruct (Z.ltb_spec (Z.of_nat (length p)) (Z.of_nat (length k))); [done | lia].
  - intros Hle. destruct (Z.ltb_spec (Z.of_nat (length p)) (Z.of_nat (length k))); [lia | done].
  - intros s Hs. rewrite length_app.
    destruct (Z.ltb_spec (Z.of_nat (length p)) (Z.of_nat (length p + length s))) as [_ | Hge].
    + by rewrite drop_app_length.
    + destruct s; [done | simpl in Hge; lia].
Qed.

Lemma prefix_trim_spec_witness :
  Prefix.trim Prefix.dictionaryPrefix (list_byte_of_string "xyz")
    = (list_byte_of_string "z", true) /\
  Prefix.trim Prefix.dictionaryPrefix (list_byte_of_string "d:") = ([], false) /\
  Prefix.trim Prefix.dictionaryPrefix
    (Prefix.key Prefix.dictionaryPrefix (list_byte_of_string "a"))
    = (list_byte_of_string "a", true).
Proof.
  split; [| split].
  - apply (proj1 (prefix_trim_spec Prefix.dictionaryPrefix (list_byte_of_string "xyz"))).
    vm_compute. lia.
  - apply (proj1 (proj2 (prefix_trim_spec Prefix.dictionaryPrefix (list_byte_of_string "d:")))).
    vm_compute. lia.
  - apply (proj2 (proj2 (prefix_trim_spec Prefix.dictionaryPrefix []))). discriminate.
Defined.

(** ** Value-log garbage collection *)

Lemma replicate_shift {A : Type} (x : A) (k : nat) (l : list A) :
  x :: replicate k x ++ l = replicate k x ++ x :: l.
Proof. induction k as [| k IH]; simpl; [done | by rewrite <- IH]. Qed.

Section RunGC.

Variables (nm : string) (ratio : float64).

Lemma DbV2_runGC_loop_ok (k : nat) (rest : list go_error) (b : bool) :
  DbV2.runGC_loop nm ratio (replicate k None ++ rest) b =
    (gc_calls nm ratio k ++ fst (DbV2.runGC_loop nm ratio rest (b || bool_decide (0 < k)%nat)),
     snd (DbV2.runGC_loop nm ratio rest (b || bool_decide (0 < k)%nat))).
Proof.
  revert b. induction k as [| k IH]; intros b; simpl.
  - rewrite orb_false_r. by destruct (DbV2.runGC_loop nm ratio rest b).
  - rewrite IH. simpl. rewrite orb_true_r.
    replace (true || bool_decide (0 < k)%nat) with true by done. done.
Qed.

Lemma DbV1_runGC_loop_false (results : list go_error) (b : bool) :
  snd (DbV1.runGC_loop nm ratio results b) = None \/
  snd (DbV1.runGC_loop nm ratio results b) = Some false.
Proof.
  revert b. induction results as [| [[| msg] |] rest IH]; intros b; simpl; auto.
  specialize (IH true). destruct (DbV1.runGC_loop nm ratio rest true). exact IH.
Qed.

(** The second copy of [runGC]: value-log GC is called until the engine
    answers with an error; [ErrNoRewrite] ends the loop with [true] exactly
    when a call before it succeeded, any other error is logged and ends the
    loop with [false]. *)
Lemma DbV2_runGC_spec (flatten : go_error) (k : nat) (e : error)
    (rest : list go_error) :
  DbV2.runGC nm ratio flatten (replicate k None ++ Some e :: rest) =
    (gc_head nm flatten ++ gc_calls nm ratio (S k) ++
       match e with
       | ErrNoRewrite => []
       | _ => [EvLog WarnLevel nm "failed to run GC" (Some e)]
       end,
     Some match e with
          | ErrNoRewrite => bool_decide (0 < k)%nat
          | _ => false
          end).
Proof.
  unfold DbV2.runGC. rewrite DbV2_runGC_loop_ok.
  unfold gc_head, gc_calls.
  destruct e; simpl; rewrite ?orb_false_l; f_equal;
    rewrite replicate_shift; done.
Qed.

(** While the engine answers [nil] the loop of [runGC] goes on. *)
Lemma DbV2_runGC_running (flatten : go_error) (k : nat) :
  snd (DbV2.runGC nm ratio flatten (replicate k None)) = None.
Proof.
  unfold DbV2.runGC.
  pose proof (DbV2_runGC_loop_ok k [] false) as H. rewrite app_nil_r in H.
  rewrite H. simpl. done.
Qed.

(** The first copy of [runGC] never returns [true]. *)
Lemma DbV1_runGC_false (flatten : go_error) (results : list go_error) :
  snd (DbV1.runGC nm ratio flatten results) = None \/
  snd (DbV1.runGC nm ratio flatten results) = Some false.
Proof.
  unfold DbV1.runGC.
  pose proof (DbV1_runGC_loop_false results false) as H.
  destruct (DbV1.runGC_loop nm ratio results false). exact H.
Qed.

End RunGC.

(** C4: in the first copy of db.go, [runGC] answers [false] to one
    successful value-log GC call followed by [ErrNoRewrite]: the success
    recorded in [reclaimed] is not returned.  The second copy answers [true]
    on the same input. *)
Theorem runGC_first_copy_loses_reclaimed :
  snd (DbV1.runGC "trees" f64_0_7 None [None; Some ErrNoRewrite]) = Some false /\
  snd (DbV2.runGC "trees" f64_0_7 None [None; Some ErrNoRewrite]) = Some true.
Proof. split; reflexivity. Qed.

(** ** The per-database GC task *)

(** The constant [0.7] of the task is the binary64 nearest to 7/10: the
    distance of 10 * m to 7 * 2^53 is below half a unit of 10 * m. *)
Lemma f64_0_7_nearest :
  f64_0_7 = S754_finite false 6305039478318694 (-53) /\
  Z.abs (10 * 6305039478318694 - 7 * 2 ^ 53) <= 5.
Proof. split; [reflexivity | vm_compute; discriminate]. Qed.

(** [filepath.Ext] looks at the final element of the path only, and
    [calculateDBSize] counts the [.sst] and [.vlog] files up to the first
    error of the walk. *)
Lemma calculateDBSize_examples :
  DbV2.Ext "/data/trees/000012.sst" = ".sst"%string /\
  DbV2.Ext "/data/trees.vlog/MANIFEST" = ""%string /\
  DbV2.Ext "/data/trees/backup.tar.vlog" = ".vlog"%string /\
  DbV2.calculateDBSize
    [DbV2.mk_entry "/data/trees" 4096 false;
     DbV2.mk_entry "/data/trees/000012.sst" 700 false;
     DbV2.mk_entry "/data/trees/000003.vlog" 300 false;
     DbV2.mk_entry "/data/trees/LOCK" 0 true;
     DbV2.mk_entry "/data/trees/000013.sst" 900 false] = 1000.
Proof. repeat split; reflexivity. Qed.

Lemma gc_due_iff (T : ByteSize) (d : db) (env : DbV2.gc_env) :
  DbV2.gc_due T d env = true <->
  lastGC d = 0 \/ T = 0 \/
  DbV2.calculateDBSize (DbV2.files_before env) - lastGC d > T.
Proof.
  unfold DbV2.gc_due. rewrite !orb_true_iff, !Z.eqb_eq, Z.ltb_lt. lia.
Qed.

(** C6, amended: a tick of the per-database GC task runs the reclaim pass,
    with the discard ratio 0.7, exactly when the baseline is zero (as it is
    on the first tick, and as it is again whenever the last snapshot was
    zero bytes), or the threshold is zero, or the size delta since the last
    GC strictly exceeds the threshold; after the pass the counter is
    incremented and the baseline is the size measured then; otherwise the
    tick changes nothing and makes no call. *)
Theorem badgerGCTask_spec (T : ByteSize) (d : db) (env : DbV2.gc_env)
    (k : nat) (e : error) (rest : list go_error) :
  DbV2.gc_results env = replicate k None ++ Some e :: rest ->
  let cur := DbV2.calculateDBSize (DbV2.files_before env) in
  let after := DbV2.calculateDBSize (DbV2.files_after env) in
  let pass := reclaim_pass (name d) (DbV2.flatten_res env) k e in
  ((lastGC d = 0 \/ T = 0 \/ cur - lastGC d > T) ->
     DbV2.badgerGCTask T d env =
       Some (DbV2.set_gc d after (gcCount d + 1), pass ++ [EvGcCountInc (name d)])) /\
  (~ (lastGC d = 0 \/ T = 0 \/ cur - lastGC d > T) ->
     DbV2.badgerGCTask T d env = Some (d, [])) /\
  (forall nm c l v,
     DbV2.badgerGCTask T (DbV2.new_db nm c l v) env =
       Some (DbV2.set_gc (DbV2.new_db nm c l v) after 1,
             reclaim_pass nm (DbV2.flatten_res env) k e ++ [EvGcCountInc nm])).
Proof.
  intros Hres cur after pass. unfold DbV2.badgerGCTask.
  repeat split.
  - intros Hdue. apply gc_due_iff in Hdue. rewrite Hdue, Hres.
    rewrite DbV2_runGC_spec. done.
  - intros Hnot. destruct (DbV2.gc_due T d env) eqn:Hdue; [| done].
    apply gc_due_iff in Hdue. done.
  - intros nm c l v. simpl. rewrite Hres, DbV2_runGC_spec. done.
Qed.

Lemma badgerGCTask_spec_witness :
  DbV2.badgerGCTask 100 (mk_db "main" false 0 0 50 1) tick_on_small_dir
    = Some (mk_db "main" false 0 0 50 1, []) /\
  DbV2.badgerGCTask 100 (mk_db "main" false 0 0 0 1) tick_on_small_dir
    = Some (mk_db "main" false 0 0 50 2,
            reclaim_pass "main" None 0 ErrNoRewrite ++ [EvGcCountInc "main"]).
Proof.
  split.
  - apply (proj1 (proj2 (badgerGCTask_spec 100 (mk_db "main" false 0 0 50 1)
                           tick_on_small_dir 0 ErrNoRewrite [] eq_refl))).
    vm_compute. intros [H | [H | H]]; discriminate.
  - apply (proj1 (badgerGCTask_spec 100 (mk_db "main" false 0 0 0 1)
                    tick_on_small_dir 0 ErrNoRewrite [] eq_refl)).
    left. reflexivity.
Defined.

(** C6, as stated, fails: after a first tick on an empty directory the
    baseline is still zero, and the next tick runs the reclaim pass although
    the threshold is 100 and the size has grown by 50 only. *)
Lemma badgerGCTask_small_delta_counterexample :
  exists d1 tr1 d2 tr2,
    DbV2.badgerGCTask 100 (DbV2.new_db "main" false 0 0) tick_on_empty_dir
      = Some (d1, tr1) /\
    DbV2.badgerGCTask 100 d1 tick_on_small_dir = Some (d2, tr2) /\
    gcCount d2 = gcCount d1 + 1 /\
    In (EvRunValueLogGC "main" f64_0_7) tr2 /\
    ~ (DbV2.calculateDBSize (DbV2.files_before tick_on_small_dir) - lastGC d1 > 100
       \/ 100 = 0).
Proof.
  do 4 eexists. split; [reflexivity |]. split; [reflexivity |].
  split; [reflexivity |]. split.
  - simpl. auto.
  - vm_compute. intros [H | H]; discriminate.
Qed.

(** ** The aggregate size-triggered GC task *)

Lemma map_sum_insert (mp : gmap string ByteSize) (k : string) (v : ByteSize) :
  mp !! k = None ->
  Orchestrator.map_sum (<[k := v]> mp) = Orchestrator.map_sum mp + v.
Proof.
  intros Hk. unfold Orchestrator.map_sum.
  rewrite map_fold_insert_L; [done | intros; lia | done].
Qed.

(** Filling a map from databases with distinct names keeps every size. *)
Lemma usage_sum (l : list db) (mp : gmap string ByteSize) :
  NoDup (map name l) ->
  (forall d, In d l -> mp !! name d = None) ->
  Orchestrator.map_sum (foldl (fun acc d => <[name d := db_size d]> acc) mp l)
    = Orchestrator.map_sum mp + foldr (fun d k => db_size d + k) 0 l.
Proof.
  revert mp. induction l as [| d l IH]; intros mp Hnd Hfresh; simpl.
  - lia.
  - inversion Hnd as [| ? ? Hnotin Hnd']; subst.
    rewrite IH; [| done |].
    + rewrite map_sum_insert by (apply Hfresh; by left). lia.
    + intros d' Hd'. rewrite lookup_insert_ne.
      * apply Hfresh. by right.
      * intros Heq. apply Hnotin. rewrite Heq.
        apply list_elem_of_In. by apply in_map.
Qed.

Lemma DiskUsage_sum (s : Orchestrator.Storage) :
  NoDup (map name (Orchestrator.databases s)) ->
  Orchestrator.map_sum (Orchestrator.DiskUsage s)
    = db_size (Orchestrator.main s) + db_size (Orchestrator.dimensions s)
      + db_size (Orchestrator.segments s) + db_size (Orchestrator.dicts s)
      + db_size (Orchestrator.trees s).
Proof.
  intros Hnd. unfold Orchestrator.DiskUsage.
  rewrite usage_sum; [| done | intros; apply lookup_empty].
  unfold Orchestrator.map_sum. rewrite map_fold_empty. simpl. lia.
Qed.

(** C1: with [n] the sum of the sizes of all the databases, a tick of the
    aggregate GC task runs the collection, once, when the threshold is zero
    or [n] minus the baseline strictly exceeds it, and the baseline is then
    [n]: the collection function is entered with the baseline already [n]
    and everything else as it was, and after the full pass the recorded
    baseline is [n].  Otherwise the tick calls nothing and the baseline is
    what it was. *)
Theorem watchDBSize_spec (diff : ByteSize) (f : Orchestrator.task)
    (s : Orchestrator.Storage) :
  NoDup (map name (Orchestrator.databases s)) ->
  let n := db_size (Orchestrator.main s) + db_size (Orchestrator.dimensions s)
           + db_size (Orchestrator.segments s) + db_size (Orchestrator.dicts s)
           + db_size (Orchestrator.trees s) in
  ((diff = 0 \/ n - Orchestrator.size s > diff) ->
     (exists s',
        Orchestrator.watchDBSize diff f s = f s' /\
        Orchestrator.size s' = n /\
        Orchestrator.cfg s' = Orchestrator.cfg s /\
        Orchestrator.databases s' = Orchestrator.databases s) /\
     Orchestrator.size (fst (Orchestrator.watchDBSize diff Orchestrator.CollectGarbage s))
       = n /\
     Orchestrator.databases
       (fst (Orchestrator.watchDBSize diff Orchestrator.CollectGarbage s))
       = Orchestrator.databases s /\
     snd (Orchestrator.watchDBSize diff Orchestrator.CollectGarbage s)
       = [EvCollectGarbage]) /\
  (~ (diff = 0 \/ n - Orchestrator.size s > diff) ->
     Orchestrator.watchDBSize diff f s = (s, []) /\
     Orchestrator.size (fst (Orchestrator.watchDBSize diff f s))
       = Orchestrator.size s).
Proof.
  intros Hnd n. unfold Orchestrator.watchDBSize.
  rewrite (DiskUsage_sum s Hnd). fold n.
  destruct ((diff =? 0) || (diff <? n - Orchestrator.size s)) eqn:Hc.
  - split.
    + intros _. split; [| done].
      exists (Orchestrator.set_size s n). done.
    + intros Hn. exfalso. apply Hn.
      apply orb_true_iff in Hc as [Hc | Hc]; [left | right]; lia.
  - split; [| done]. intros Hy. exfalso.
    apply orb_false_iff in Hc as [Hc1 Hc2]. lia.
Qed.

Lemma watchDBSize_spec_witness :
  (Orchestrator.size
     (fst (Orchestrator.watchDBSize 256 Orchestrator.CollectGarbage
             (sample_storage 6444))) = 6701 /\
   snd (Orchestrator.watchDBSize 256 Orchestrator.CollectGarbage
          (sample_storage 6444)) = [EvCollectGarbage]) /\
  (Orchestrator.watchDBSize 256 Orchestrator.CollectGarbage (sample_storage 6445)
     = (sample_storage 6445, []) /\
   Orchestrator.size
     (fst (Orchestrator.watchDBSize 256 Orchestrator.CollectGarbage
             (sample_storage 6445))) = 6445).
Proof.
  assert (Hnames : forall b,
             NoDup (map name (Orchestrator.databases (sample_storage b)))).
  { intros b. apply (bool_decide_unpack _). vm_compute. reflexivity. }
  split.
  - destruct (proj1 (watchDBSize_spec 256 Orchestrator.CollectGarbage
                       (sample_storage 6444) (Hnames 6444)))
      as (_ & Hsize & _ & Hcalls).
    + right. vm_compute. reflexivity.
    + split; [exact Hsize | exact Hcalls].
  - apply (proj2 (watchDBSize_spec 256 Orchestrator.CollectGarbage
                    (sample_storage 6445) (Hnames 6445))).
    vm_compute. intros [H | H]; discriminate.
Defined.

(** ** The eviction task *)

Lemma SFcompare_antisym (x y : float64) (c : comparison) :
  SFcompare x y = Some c -> SFcompare y x = Some (CompOpp c).
Proof.
  destruct x as [sx | sx | | sx mx ex], y as [sy | sy | | sy my ey];
    simpl; intros [= <-]; try done;
    try (destruct sx; done); try (destruct sy; done);
    try (destruct sx, sy; done).
  destruct sx, sy; try done;
    rewrite (Z.compare_antisym ex ey); destruct (ex ?= ey); simpl; try done;
    rewrite (Pos.compare_cont_antisym mx my Eq); simpl; done.
Qed.

(** At or above the threshold is the same as not below it, when the
    comparison is defined. *)
Lemma f64_leb_not_ltb (t r : float64) :
  f64_leb t r = true -> f64_ltb r t = false.
Proof.
  unfold f64_leb, f64_ltb, SFleb, SFltb.
  destruct (SFcompare t r) as [c |] eqn:Hc; [| done].
  rewrite (SFcompare_antisym _ _ _ Hc). by destruct c.
Qed.

(** C2: with [ratio] the used memory divided by the total memory, a tick of
    the eviction task does nothing when [ratio] is strictly below the
    threshold, and when [ratio] is at or above the threshold it makes one
    eviction call on the trees cache with the configured percentage and
    then one write-back call on each of the dictionaries, dimensions and
    segments caches, in this order. *)
Theorem evictionTask_spec (memTotal alloc : Z) (s : Orchestrator.Storage) :
  let ratio := f64_div (float64_of_uint alloc) (float64_of_uint memTotal) in
  let threshold := Orchestrator.CacheEvictThreshold (Orchestrator.cfg s) in
  let percent := Orchestrator.CacheEvictVolume (Orchestrator.cfg s) in
  (f64_ltb ratio threshold = true ->
     Orchestrator.evictionTask memTotal alloc s = (s, [])) /\
  (f64_leb threshold ratio = true ->
     Orchestrator.evictionTask memTotal alloc s =
       (s, [EvCacheEvict (name (Orchestrator.trees s)) percent;
            EvCacheWriteBack (name (Orchestrator.dicts s));
            EvCacheWriteBack (name (Orchestrator.dimensions s));
            EvCacheWriteBack (name (Orchestrator.segments s));
            EvRuntimeGC])).
Proof.
  intros ratio threshold percent. unfold Orchestrator.evictionTask.
  fold ratio threshold percent. split.
  - intros ->. done.
  - intros Hge. by rewrite (f64_leb_not_ltb _ _ Hge).
Qed.

Lemma evictionTask_spec_witness :
  Orchestrator.evictionTask 8589934592 1073741824 (sample_storage 0)
    = (sample_storage 0, []) /\
  Orchestrator.evictionTask 8589934592 4294967296 (sample_storage 0)
    = (sample_storage 0,
       [EvCacheEvict "trees" (S754_finite false 7205759403792794 (-56));
        EvCacheWriteBack "dicts"; EvCacheWriteBack "dimensions";
        EvCacheWriteBack "segments"; EvRuntimeGC]).
Proof.
  split.
  - apply (proj1 (evictionTask_spec 8589934592 1073741824 (sample_storage 0))).
    vm_compute. reflexivity.
  - apply (proj2 (evictionTask_spec 8589934592 4294967296 (sample_storage 0))).
    vm_compute. reflexivity.
Defined.

(** The ratio of the second tick above is the threshold itself. *)
Lemma eviction_boundary_ratio :
  f64_div (float64_of_uint 4294967296) (float64_of_uint 8589934592)
    = Orchestrator.CacheEvictThreshold (Orchestrator.cfg (sample_storage 0)).
Proof. vm_compute. reflexivity. Qed.

(** ** One periodic task *)

Section PeriodicTask.

Context {A : Type}.
Variables (interval : Z) (f : list A).

Lemma periodicTask_loop_timers (k : nat) (rest : list Periodic.select_case) :
  Periodic.periodicTask_loop interval f (replicate k Periodic.CaseTimer ++ rest) =
    (concat (replicate k (round interval f)) ++ fst (Periodic.periodicTask_loop interval f rest),
     snd (Periodic.periodicTask_loop interval f rest)).
Proof.
  induction k as [| k IH]; simpl.
  - by destruct (Periodic.periodicTask_loop interval f rest).
  - by rewrite IH.
Qed.

(** A schedule is a run of timer expiries, followed or not by the stop case. *)
Lemma sched_shape (sched : list Periodic.select_case) :
  (exists k, sched = replicate k Periodic.CaseTimer) \/
  (exists k rest, sched = replicate k Periodic.CaseTimer ++ Periodic.CaseStop :: rest).
Proof.
  induction sched as [| [|] sched IH].
  - left. by exists 0%nat.
  - right. by exists 0%nat, sched.
  - destruct IH as [[k ->] | (k & rest & ->)].
    + left. by exists (S k).
    + right. by exists (S k), rest.
Qed.

Lemma body_runs_loop (sched : list Periodic.select_case) :
  Periodic.body_runs (fst (Periodic.periodicTask_loop interval f sched))
    = Periodic.timer_rounds sched.
Proof.
  induction sched as [| [|] sched IH]; simpl; [done | done |].
  destruct (Periodic.periodicTask_loop interval f sched). simpl in *. by rewrite IH.
Qed.

End PeriodicTask.

(** C7: a periodic task whose stop signal has fired at its start never runs
    its body; otherwise it runs the body once at once, then once per timer
    expiry, each followed by the reset of the timer to the same interval,
    and when a [select] takes the stop case it returns: nothing that the
    schedule holds after that is run. *)
Theorem periodicTask_spec {A : Type} (interval : Z) (f : list A) :
  (forall sched,
     Periodic.periodicTask interval f true sched
       = ([Periodic.NewTimer interval; Periodic.TimerStop; Periodic.WgDone], true)) /\
  (forall k rest,
     Periodic.periodicTask interval f false
         (replicate k Periodic.CaseTimer ++ Periodic.CaseStop :: rest)
       = (Periodic.NewTimer interval :: Periodic.Body f
            :: concat (replicate k (round interval f))
            ++ [Periodic.TimerStop; Periodic.WgDone], true)) /\
  (forall k,
     Periodic.periodicTask interval f false (replicate k Periodic.CaseTimer)
       = (Periodic.NewTimer interval :: Periodic.Body f
            :: concat (replicate k (round interval f)), false)) /\
  (forall stopped sched,
     Periodic.body_runs (fst (Periodic.periodicTask interval f stopped sched))
       = if stopped then 0%nat
         else S (Periodic.timer_rounds sched)).
Proof.
  repeat split.
  - intros k rest. unfold Periodic.periodicTask.
    rewrite periodicTask_loop_timers. done.
  - intros k. unfold Periodic.periodicTask.
    pose proof (periodicTask_loop_timers interval f k []) as H.
    rewrite app_nil_r in H. rewrite H. simpl. by rewrite app_nil_r.
  - intros [|] sched; [done |]. unfold Periodic.periodicTask.
    pose proof (body_runs_loop interval f sched) as H.
    destruct (Periodic.periodicTask_loop interval f sched). simpl in *.
    by rewrite H.
Qed.

(** ** The maintenance mutex *)

Section Mutex.

Import Maintenance.

Lemma holds_insert_out (p : task_id -> pc) (t x : task_id) (v : pc) :
  v <> InBody -> v <> Unlocking ->
  holds (<[t := v]> p) x -> x <> t /\ holds p x.
Proof.
  intros Hv1 Hv2 Hx. unfold holds in *.
  destruct (decide (t = x)) as [-> | Hne].
  - rewrite fn_lookup_insert in Hx. destruct Hx; done.
  - rewrite fn_lookup_insert_ne in Hx by done. split; [congruence | done].
Qed.

Lemma holds_insert_in (p : task_id -> pc) (t x : task_id) (v : pc) :
  holds p t -> holds (<[t := v]> p) x -> holds p x.
Proof.
  intros Ht Hx. unfold holds in *.
  destruct (decide (t = x)) as [-> | Hne]; [done |].
  by rewrite fn_lookup_insert_ne in Hx.
Qed.

Lemma insert_not (p : task_id -> pc) (t x : task_id) (v w : pc) :
  p x <> w -> v <> w -> (<[t := v]> p) x <> w.
Proof.
  intros Hp Hv. destruct (decide (t = x)) as [-> | Hne].
  - by rewrite fn_lookup_insert.
  - by rewrite fn_lookup_insert_ne.
Qed.

Lemma enter_maintenance (t : task_id) :
  is_maintenance t = true -> enter t = Locking.
Proof. unfold enter. by intros ->. Qed.

Lemma enter_not_holding (p : task_id -> pc) (t x : task_id) :
  is_maintenance x = true -> holds (<[t := enter t]> p) x -> x <> t /\ holds p x.
Proof.
  intros Hx Hh. unfold holds in *.
  destruct (decide (t = x)) as [-> | Hne].
  - rewrite fn_lookup_insert, (enter_maintenance _ Hx) in Hh. destruct Hh; done.
  - rewrite fn_lookup_insert_ne in Hh by done. split; [congruence | done].
Qed.

Lemma enter_other (t : task_id) :
  is_maintenance t = false -> enter t <> Locking /\ enter t <> Unlocking.
Proof. unfold enter. by intros ->. Qed.

Lemma mutex_inv_init : mutex_inv init.
Proof.
  unfold mutex_inv, holds. simpl. split; [| split].
  - intros t1 t2 _ _ [H | H]; done.
  - intros t _ [H | H]; done.
  - intros t _. done.
Qed.

Lemma insert_unlocked (p : task_id -> pc) (t : task_id) (v : pc) :
  (forall x, is_maintenance x = false -> p x <> Locking /\ p x <> Unlocking) ->
  (is_maintenance t = false -> v <> Locking /\ v <> Unlocking) ->
  forall x, is_maintenance x = false ->
            (<[t := v]> p) x <> Locking /\ (<[t := v]> p) x <> Unlocking.
Proof.
  intros Hp Hv x Hx. destruct (decide (t = x)) as [-> | Hne].
  - rewrite fn_lookup_insert. by apply Hv.
  - rewrite fn_lookup_insert_ne by done. by apply Hp.
Qed.

Lemma leave_other (t : task_id) :
  is_maintenance t = false -> leave t <> Locking /\ leave t <> Unlocking.
Proof. unfold leave. by intros ->. Qed.

Lemma mutex_inv_step (s s' : state) :
  step s s' -> mutex_inv s -> mutex_inv s'.
Proof.
  intros Hstep (Huniq & Hlocked & Hmetrics).
  destruct Hstep as [st mu p | mu p t Hpc | mu p t Hpc | st p t Hpc
                    | st mu p t Hpc | st mu p t Hpc | mu p t Hpc | st mu p t Hpc];
    simpl in *.
  - (* close(s.stop) *) done.
  - (* first select, stop case *)
    split; [| split].
    + intros t1 t2 H1 H2 Hh1 Hh2.
      apply holds_insert_out in Hh1 as [_ Hh1]; [| done..].
      apply holds_insert_out in Hh2 as [_ Hh2]; [| done..]. eauto.
    + intros x Hx Hh. apply holds_insert_out in Hh as [_ Hh]; [| done..]. eauto.
    + by apply insert_unlocked.
  - (* first select, default case *)
    split; [| split].
    + intros t1 t2 H1 H2 Hh1 Hh2.
      apply enter_not_holding in Hh1 as [_ Hh1]; [| done].
      apply enter_not_holding in Hh2 as [_ Hh2]; [| done]. eauto.
    + intros x Hx Hh. apply enter_not_holding in Hh as [_ Hh]; [| done]. eauto.
    + apply insert_unlocked; [done | apply enter_other].
  - (* Lock *)
    assert (Hfree : forall x, is_maintenance x = true -> ~ holds p x).
    { intros x Hx Hh. specialize (Hlocked x Hx Hh). done. }
    assert (Hlast : forall x, is_maintenance x = true ->
                              holds (<[t := InBody]> p) x -> x = t).
    { intros x Hx Hh. destruct (decide (t = x)) as [-> | Hne]; [done |].
      unfold holds in Hh. rewrite fn_lookup_insert_ne in Hh by done.
      by destruct (Hfree x Hx). }
    split; [| split].
    + intros t1 t2 H1 H2 Hh1 Hh2.
      rewrite (Hlast t1 H1 Hh1), (Hlast t2 H2 Hh2). done.
    + done.
    + by apply insert_unlocked.
  - (* f returns *)
    assert (Hheld : holds p t) by (by left).
    split; [| split].
    + intros t1 t2 H1 H2 Hh1 Hh2.
      apply (holds_insert_in _ _ _ _ Hheld) in Hh1.
      apply (holds_insert_in _ _ _ _ Hheld) in Hh2. eauto.
    + intros x Hx Hh. apply (holds_insert_in _ _ _ _ Hheld) in Hh. eauto.
    + apply insert_unlocked; [done | apply leave_other].
  - (* Unlock *)
    assert (Hheld : holds p t) by (by right).
    assert (Hmt : is_maintenance t = true).
    { destruct (is_maintenance t) eqn:E; [done |].
      by destruct (Hmetrics t E) as [_ Hc]. }
    assert (Hnone : forall x, is_maintenance x = true ->
                              ~ holds (<[t := Selecting]> p) x).
    { intros x Hx Hh. apply holds_insert_out in Hh as [Hne Hh]; [| done..].
      apply Hne. eauto. }
    split; [| split].
    + intros t1 t2 H1 H2 Hh1 _. by destruct (Hnone t1 H1).
    + intros x Hx Hh. by destruct (Hnone x Hx).
    + by apply insert_unlocked.
  - (* select, stop case *)
    split; [| split].
    + intros t1 t2 H1 H2 Hh1 Hh2.
      apply holds_insert_out in Hh1 as [_ Hh1]; [| done..].
      apply holds_insert_out in Hh2 as [_ Hh2]; [| done..]. eauto.
    + intros x Hx Hh. apply holds_insert_out in Hh as [_ Hh]; [| done..]. eauto.
    + by apply insert_unlocked.
  - (* select, timer case *)
    split; [| split].
    + intros t1 t2 H1 H2 Hh1 Hh2.
      apply enter_not_holding in Hh1 as [_ Hh1]; [| done].
      apply enter_not_holding in Hh2 as [_ Hh2]; [| done]. eauto.
    + intros x Hx Hh. apply enter_not_holding in Hh as [_ Hh]; [| done]. eauto.
    + apply insert_unlocked; [done | apply enter_other].
Qed.

Lemma mutex_inv_reachable (s : state) : reachable s -> mutex_inv s.
Proof.
  induction 1 as [| s s' _ IH Hstep]; [apply mutex_inv_init |].
  by apply (mutex_inv_step s s').
Qed.

End Mutex.

Lemma gc_in_body_reachable : Maintenance.reachable gc_in_body.
Proof.
  eapply Maintenance.reach_step.
  - eapply Maintenance.reach_step; [apply Maintenance.reach_init |].
    apply (Maintenance.step_start_default false _ Maintenance.GCWatch). reflexivity.
  - apply (Maintenance.step_lock false _ Maintenance.GCWatch). reflexivity.
Defined.

Lemma gc_and_metrics_reachable : Maintenance.reachable gc_and_metrics_in_body.
Proof.
  eapply Maintenance.reach_step; [apply gc_in_body_reachable |].
  apply (Maintenance.step_start_default true _ Maintenance.UpdateMetrics). reflexivity.
Qed.

(** C9: in every reachable state at most one maintenance task is inside its
    function, since each has to take the one mutex first; the metrics task
    does not take it and can be inside its function together with a
    maintenance task. *)
Theorem maintenance_exclusive :
  (forall s t1 t2,
     Maintenance.reachable s ->
     Maintenance.is_maintenance t1 = true ->
     Maintenance.is_maintenance t2 = true ->
     Maintenance.running s t1 -> t2 <> t1 -> ~ Maintenance.running s t2) /\
  (exists s, Maintenance.reachable s /\
             Maintenance.running s Maintenance.GCWatch /\
             Maintenance.running s Maintenance.UpdateMetrics).
Proof.
  split.
  - intros s t1 t2 Hreach H1 H2 Hr1 Hne Hr2.
    destruct (mutex_inv_reachable s Hreach) as (Huniq & _ & _).
    apply Hne. apply Huniq; [done | done | by left | by left].
  - exists gc_and_metrics_in_body. split; [apply gc_and_metrics_reachable |].
    split; reflexivity.
Qed.

Lemma maintenance_exclusive_witness :
  Maintenance.reachable gc_in_body /\
  Maintenance.running gc_in_body Maintenance.GCWatch /\
  ~ Maintenance.running gc_in_body Maintenance.Eviction /\
  ~ Maintenance.running gc_in_body (Maintenance.BadgerGC "trees").
Proof.
  split; [apply gc_in_body_reachable |]. split; [reflexivity |]. split.
  - apply (proj1 maintenance_exclusive gc_in_body Maintenance.GCWatch
             Maintenance.Eviction gc_in_body_reachable eq_refl eq_refl eq_refl).
    discriminate.
  - apply (proj1 maintenance_exclusive gc_in_body Maintenance.GCWatch
             (Maintenance.BadgerGC "trees") gc_in_body_reachable eq_refl eq_refl eq_refl).
    discriminate.
Defined.

(** ** Shutdown *)

Section Close.

Import Shutdown.

Variable fails : dbid -> bool.

Lemma extends_refl (tr : list cevent) : extends tr tr.
Proof. exists []. by rewrite app_nil_r. Qed.

Lemma extends_app (tr evs : list cevent) : extends tr (tr ++ evs).
Proof. by exists evs. Qed.

Lemma extends_in (tr tr' : list cevent) (ev : cevent) :
  extends tr tr' -> In ev tr -> In ev tr'.
Proof. intros [evs ->] Hin. apply in_or_app. by left. Qed.

Lemma close_completed_mono (d : dbid) (tr tr' : list cevent) :
  extends tr tr' -> close_completed fails d tr -> close_completed fails d tr'.
Proof.
  intros Hext (H1 & H2 & H3). repeat split; eauto using extends_in.
Qed.

Lemma close_upto_mono (d : dbid) (c : close_pc) (tr tr' : list cevent) :
  extends tr tr' -> close_upto fails d c tr -> close_upto fails d c tr'.
Proof.
  intros Hext. destruct c; simpl; try done.
  - eauto using extends_in.
  - intros [H1 H2]. eauto using extends_in.
  - by apply close_completed_mono.
Qed.

(** A step of [d.close()] keeps what is known of the trace up to date. *)
Lemma close_upto_step (d : dbid) (c c' : close_pc) (evs tr : list cevent) :
  close_step fails d c = Some (c', evs) ->
  close_upto fails d c tr ->
  (c = CLogError -> fails d = true) ->
  close_upto fails d c' (tr ++ evs) /\ (c' = CLogError -> fails d = true).
Proof.
  intros Hstep Hupto Hlog. destruct c; simpl in Hstep; simplify_eq; simpl in *.
  - destruct (has_cache d) eqn:Hc; simpl; (split; [| done]);
      [done | intros; congruence].
  - split; [| done]. intros _. apply in_or_app. right. by left.
  - destruct (fails d) eqn:Hf; simpl.
    + split; [| done]. split.
      * apply in_or_app. right. by left.
      * intros Hc. apply in_or_app. left. by apply Hupto.
    + split; [| done]. unfold close_completed. rewrite Hf. split; [| split].
      * apply in_or_app. right. by left.
      * intros Hc. apply in_or_app. left. by apply Hupto.
      * done.
  - split; [| done]. destruct Hupto as [H1 H2]. split; [| split].
    + apply in_or_app. by left.
    + intros Hc. apply in_or_app. left. by apply H2.
    + intros _. apply in_or_app. right. by left.
Qed.

(** The close of another database makes no call on the dictionaries one. *)
Lemma close_step_events (d : dbid) (c c' : close_pc) (evs : list cevent) :
  close_step fails d c = Some (c', evs) -> d <> Dicts ->
  forall ev, In ev evs -> ~ is_dicts_close ev.
Proof.
  intros Hstep Hd ev Hin [H | [H | H]]; subst ev;
    destruct c; simpl in Hstep; simplify_eq; simpl in Hin;
    destruct Hin as [Hin | []]; congruence.
Qed.

Lemma dicts_last_app_other (tr evs : list cevent) :
  dicts_last fails tr ->
  (forall ev, In ev evs -> ~ is_dicts_close ev) ->
  dicts_last fails (tr ++ evs).
Proof.
  intros Hlast Hevs pre ev post Heq Hev d Hd.
  apply app_eq_app in Heq as [l [[-> Heq] | [-> Heq]]].
  - destruct l as [| ev' l]; simpl in Heq.
    + exfalso. apply (Hevs ev); [| done]. rewrite <- Heq. by left.
    + simplify_eq. eapply Hlast; eauto.
  - exfalso. apply (Hevs ev); [| done]. rewrite Heq.
    apply in_or_app. right. by left.
Qed.

Lemma dicts_last_app_dicts (tr evs : list cevent) :
  dicts_last fails tr ->
  (forall d, d <> Dicts -> close_completed fails d tr) ->
  dicts_last fails (tr ++ evs).
Proof.
  intros Hlast Hall pre ev post Heq Hev d Hd.
  apply app_eq_app in Heq as [l [[-> Heq] | [-> Heq]]].
  - destruct l as [| ev' l]; simpl in Heq.
    + rewrite app_nil_r in Hall. by apply Hall.
    + simplify_eq. eapply Hlast; eauto.
  - apply (close_completed_mono d tr); [apply extends_app | by apply Hall].
Qed.

(** Counting the goroutines that have not called [wg.Done()]. *)
Lemma live_insert (gs : dbid -> gpc) (d : dbid) (v : gpc) :
  live (<[d := v]> gs) = live gs - alive (gs d) + alive v.
Proof.
  unfold live. simpl.
  destruct d;
    rewrite fn_lookup_insert, !fn_lookup_insert_ne by done; lia.
Qed.

Lemma alive_range (x : gpc) : 0 <= alive x <= 1.
Proof. destruct x; simpl; lia. Qed.

Lemma live_zero (gs : dbid -> gpc) : live gs = 0 -> forall d, gs d = GExit.
Proof.
  unfold live. simpl. intros Hsum d.
  pose proof (alive_range (gs Main)). pose proof (alive_range (gs Dimensions)).
  pose proof (alive_range (gs Segments)). pose proof (alive_range (gs Dicts)).
  pose proof (alive_range (gs Trees)).
  assert (Hd : alive (gs d) = 0) by (destruct d; lia).
  destruct (gs d); simpl in Hd; done.
Qed.

Lemma live_pos (gs : dbid -> gpc) : live gs <> 0 -> exists d, gs d <> GExit.
Proof.
  intros Hne.
  destruct (decide (gs Main = GExit)) as [H1 |]; [| by eexists].
  destruct (decide (gs Dimensions = GExit)) as [H2 |]; [| by eexists].
  destruct (decide (gs Segments = GExit)) as [H3 |]; [| by eexists].
  destruct (decide (gs Dicts = GExit)) as [H4 |]; [| by eexists].
  destruct (decide (gs Trees = GExit)) as [H5 |]; [| by eexists].
  exfalso. apply Hne. unfold live. simpl. rewrite H1, H2, H3, H4, H5. done.
Qed.

Lemma in_databases (d : dbid) : In d databases.
Proof. destruct d; simpl; tauto. Qed.

Lemma databases_nodup : NoDup databases.
Proof. apply (bool_decide_unpack _). vm_compute. reflexivity. Qed.

End Close.

Section CloseInvariant.

Import Shutdown.

Variable fails : dbid -> bool.

Lemma gor_inv_keep mp gs w n tr r mp' w' n' tr' r' (x : dbid) :
  extends tr tr' ->
  gor_inv fails (mk_state mp gs w n tr r) x ->
  gor_inv fails (mk_state mp' gs w' n' tr' r') x.
Proof.
  intros Hext. unfold gor_inv. simpl. destruct (gs x); try done.
  - intros (H1 & H2 & H3). eauto using close_upto_mono.
  - intros H Hd. eauto using close_completed_mono.
  - intros H Hd. eauto using close_completed_mono.
Qed.

Lemma gor_inv_other mp gs w n tr r mp' w' n' tr' r' (d x : dbid) (v : gpc) :
  x <> d -> extends tr tr' ->
  gor_inv fails (mk_state mp gs w n tr r) x ->
  gor_inv fails (mk_state mp' (<[d := v]> gs) w' n' tr' r') x.
Proof.
  intros Hne Hext H.
  apply (gor_inv_keep mp gs w n tr r mp' w' n' tr' r' x Hext) in H.
  unfold gor_inv in *. simpl in *. by rewrite fn_lookup_insert_ne.
Qed.

Lemma main_inv_gor mp gs w n tr r (d : dbid) (v : gpc) tr' :
  extends tr tr' ->
  main_inv fails (mk_state mp gs w n tr r) ->
  gs d <> GNotStarted -> gs d <> GExit -> v <> GNotStarted ->
  main_inv fails (mk_state mp (<[d := v]> gs) (w - alive (gs d) + alive v) n tr' r).
Proof.
  intros Hext Hinv Hns Hex Hv. unfold main_inv in *. simpl in *.
  destruct mp.
  - destruct Hinv as [_ Hall]. by destruct (Hns (Hall d)).
  - destruct Hinv as [_ Hall]. by destruct (Hns (Hall d)).
  - destruct Hinv as [_ Hall]. by destruct (Hns (Hall d)).
  - destruct Hinv as (Hst & Htodo & Hrest & Hwg). split; [done |]. split; [| split].
    + intros x Hx. destruct (decide (d = x)) as [-> | Hne].
      * by destruct (Hns (Htodo x Hx)).
      * rewrite fn_lookup_insert_ne by done. by apply Htodo.
    + intros x Hx. destruct (decide (d = x)) as [-> | Hne].
      * by rewrite fn_lookup_insert.
      * rewrite fn_lookup_insert_ne by done. by apply Hrest.
    + rewrite live_insert. lia.
  - destruct Hinv as (Hrest & Hwg). split.
    + intros x. destruct (decide (d = x)) as [-> | Hne].
      * by rewrite fn_lookup_insert.
      * rewrite fn_lookup_insert_ne by done. by apply Hrest.
    + rewrite live_insert. lia.
  - destruct Hinv as (Hall & _). by destruct (Hex (Hall d)).
  - destruct Hinv as (Hall & _). by destruct (Hex (Hall d)).
Qed.

Lemma no_dicts_app (tr evs : list cevent) :
  (forall ev, In ev tr -> ~ is_dicts_close ev) ->
  (forall ev, In ev evs -> ~ is_dicts_close ev) ->
  forall ev, In ev (tr ++ evs) -> ~ is_dicts_close ev.
Proof.
  intros H1 H2 ev Hin. apply in_app_or in Hin as [Hin | Hin]; eauto.
Qed.

Lemma inv_init (n : nat) : inv fails (init n).
Proof.
  unfold inv, init, main_inv, gor_inv. simpl.
  split; [done |]. split; [done |]. split; [by intros _ ev [] |].
  split; [done |]. split; [by intros H |].
  intros pre ev post Heq. by destruct pre.
Qed.

Lemma log_events_plain (evs : list cevent) :
  Forall (fun ev => ev = CloseStop \/ exists msg, ev = LogDebug msg) evs ->
  forall ev, In ev evs -> ~ is_dicts_close ev.
Proof.
  intros Hall ev Hin Hd. rewrite Forall_forall in Hall.
  apply list_elem_of_In in Hin.
  destruct (Hall ev Hin) as [-> | [msg ->]]; destruct Hd as [H | [H | H]]; done.
Qed.

Lemma inv_step (s s' : state) : step fails s s' -> inv fails s -> inv fails s'.
Proof.
  intros Hstep (Hmain & Hgor & Hno & Hres & Htasks & Hlast).
  destruct Hstep as [gs w n tr r | gs w n tr r | gs w tr r | gs w n tr r
                    | d todo gs w n tr r | gs w n tr r | gs n tr r
                    | c c' evs gs w n tr r Hc | gs w n tr r
                    | d mp gs w n tr r Hpc | d c c' evs mp gs w n tr r Hpc Hc
                    | d mp gs w n tr r Hpc | d mp gs w n tr r Hpc];
    unfold inv; unfold main_inv in Hmain; simpl in *.
  - (* close(s.stop) *)
    assert (Hplain : forall ev,
               In ev [CloseStop; LogDebug "waiting for storage tasks to finish"] ->
               ~ is_dicts_close ev).
    { apply log_events_plain.
      repeat (apply List.Forall_cons; [eauto |]). apply List.Forall_nil. }
    split; [done |]. split.
    { intros d. eapply gor_inv_keep; [apply extends_app | apply Hgor]. }
    split. { intros _. apply no_dicts_app; [by apply Hno | done]. }
    split; [done |]. split; [by intros _ H |].
    by apply dicts_last_app_other.
  - (* a periodic task returns *)
    split; [done |]. split.
    { intros d. eapply gor_inv_keep; [apply extends_refl | apply Hgor]. }
    split; [done |]. split; [done |]. split; [by intros _ H | done].
  - (* s.wg.Wait() returns *)
    assert (Hplain : forall ev,
               In ev [LogDebug "storage tasks to finished"] -> ~ is_dicts_close ev).
    { apply log_events_plain.
      repeat (apply List.Forall_cons; [eauto |]). apply List.Forall_nil. }
    split; [done |]. split.
    { intros d. eapply gor_inv_keep; [apply extends_app | apply Hgor]. }
    split. { intros _. apply no_dicts_app; [by apply Hno | done]. }
    split; [done |]. split; [done |].
    by apply dicts_last_app_other.
  - (* wg.Add(len(dbs)) *)
    destruct Hmain as [Hw Hall]. split.
    { unfold main_inv. simpl. split; [by exists [] |]. split; [by intros d _ |].
      split; [intros d Hd; by destruct (Hd (in_databases d)) |].
      unfold live. simpl. rewrite !Hall. simpl. lia. }
    split. { intros d. eapply gor_inv_keep; [apply extends_refl | apply Hgor]. }
    split; [done |]. split; [done |]. split; [| done].
    intros _ _. by apply Htasks.
  - (* go func(db *db) *)
    destruct Hmain as ([started Hst] & Htodo & Hrest & Hwg).
    assert (Hfresh : ~ In d todo).
    { pose proof databases_nodup as Hnd. rewrite Hst in Hnd.
      apply NoDup_app in Hnd as (_ & _ & Hnd).
      apply NoDup_cons in Hnd as [Hnd _].
      intros Hin. apply Hnd. by apply list_elem_of_In. }
    split.
    { unfold main_inv. simpl. split; [| split; [| split]].
      - exists (started ++ [d]). by rewrite <- app_assoc.
      - intros x Hx. rewrite fn_lookup_insert_ne by (intros ->; done).
        apply Htodo. by right.
      - intros x Hx. destruct (decide (d = x)) as [-> | Hne].
        + by rewrite fn_lookup_insert.
        + rewrite fn_lookup_insert_ne by done. apply Hrest.
          intros [Heq | Hin]; done.
      - rewrite live_insert, (Htodo d) by (by left). simpl. lia. }
    split.
    { intros x. destruct (decide (x = d)) as [-> | Hne].
      - unfold gor_inv. simpl. by rewrite fn_lookup_insert.
      - eapply gor_inv_other; [done | apply extends_refl | apply Hgor]. }
    split; [done |]. split; [done |]. split; [| done].
    intros _ _. by apply Htasks.
  - (* the loop of goDB ends *)
    destruct Hmain as (_ & _ & Hrest & Hwg). split.
    { unfold main_inv. simpl. split; [| done]. intros d. apply Hrest. tauto. }
    split. { intros d. eapply gor_inv_keep; [apply extends_refl | apply Hgor]. }
    split; [done |]. split; [done |]. split; [| done].
    intros _ _. by apply Htasks.
  - (* wg.Wait() returns *)
    destruct Hmain as (_ & Hwg). symmetry in Hwg.
    pose proof (live_zero gs Hwg) as Hall. split; [done |]. split.
    { intros d. eapply gor_inv_keep; [apply extends_refl | apply Hgor]. }
    split; [done |]. split; [done |]. split; [| done].
    intros _ _. by apply Htasks.
  - (* a step of s.dicts.close() *)
    destruct Hmain as (Hall & Hupto & Hlog).
    destruct (close_upto_step fails Dicts c c' evs tr Hc Hupto Hlog) as [Hupto' Hlog'].
    split; [done |]. split.
    { intros d. eapply gor_inv_keep; [apply extends_app | apply Hgor]. }
    split; [done |]. split; [done |]. split.
    { intros _ _. by apply Htasks. }
    apply dicts_last_app_dicts; [done |].
    intros d Hd. specialize (Hgor d). unfold gor_inv in Hgor. simpl in Hgor.
    rewrite (Hall d) in Hgor. by apply Hgor.
  - (* return nil *)
    destruct Hmain as (Hall & Hupto & _). split; [done |]. split.
    { intros d. eapply gor_inv_keep; [apply extends_refl | apply Hgor]. }
    split; [done |]. split; [done |]. split; [| done].
    intros _ _. by apply Htasks.
  - (* a goroutine enters f *)
    set (v := if decide (d = Dicts) then GDefer else GClosing CStart).
    assert (Hv : alive v = 1) by (unfold v; by destruct (decide (d = Dicts))).
    split.
    { replace w with (w - alive (gs d) + alive v) by (rewrite Hpc, Hv; simpl; lia).
      apply (main_inv_gor mp gs w n tr r d v tr); [apply extends_refl | done | | |].
      - by rewrite Hpc.
      - by rewrite Hpc.
      - unfold v. by destruct (decide (d = Dicts)). }
    split.
    { intros x. destruct (decide (x = d)) as [-> | Hne].
      - unfold gor_inv. simpl. rewrite fn_lookup_insert. unfold v.
        destruct (decide (d = Dicts)); [done |]. simpl. done.
      - eapply gor_inv_other; [done | apply extends_refl | apply Hgor]. }
    done.
  - (* a goroutine makes a step of d.close() *)
    pose proof (Hgor d) as Hd. unfold gor_inv in Hd. simpl in Hd. rewrite Hpc in Hd.
    destruct Hd as (Hne & Hupto & Hlog).
    destruct (close_upto_step fails d c c' evs tr Hc Hupto Hlog) as [Hupto' Hlog'].
    pose proof (close_step_events fails d c c' evs Hc Hne) as Hplain.
    split.
    { replace w with (w - alive (gs d) + alive (GClosing c'))
        by (rewrite Hpc; simpl; lia).
      apply (main_inv_gor mp gs w n tr r d (GClosing c') (tr ++ evs));
        [apply extends_app | done | | | done]; by rewrite Hpc. }
    split.
    { intros x. destruct (decide (x = d)) as [-> | Hx].
      - unfold gor_inv. simpl. by rewrite fn_lookup_insert.
      - eapply gor_inv_other; [done | apply extends_app | apply Hgor]. }
    split. { intros Hb. apply no_dicts_app; [by apply Hno | done]. }
    split; [done |]. split; [done |].
    by apply dicts_last_app_other.
  - (* d.close() returns in a goroutine *)
    pose proof (Hgor d) as Hd. unfold gor_inv in Hd. simpl in Hd. rewrite Hpc in Hd.
    destruct Hd as (Hne & Hupto & _).
    split.
    { replace w with (w - alive (gs d) + alive GDefer) by (rewrite Hpc; simpl; lia).
      apply (main_inv_gor mp gs w n tr r d GDefer tr);
        [apply extends_refl | done | | | done]; by rewrite Hpc. }
    split.
    { intros x. destruct (decide (x = d)) as [-> | Hx].
      - unfold gor_inv. simpl. by rewrite fn_lookup_insert.
      - eapply gor_inv_other; [done | apply extends_refl | apply Hgor]. }
    done.
  - (* wg.Done() *)
    pose proof (Hgor d) as Hd. unfold gor_inv in Hd. simpl in Hd. rewrite Hpc in Hd.
    split.
    { replace (w - 1) with (w - alive (gs d) + alive GExit)
        by (rewrite Hpc; simpl; lia).
      apply (main_inv_gor mp gs w n tr r d GExit tr);
        [apply extends_refl | done | | | done]; by rewrite Hpc. }
    split.
    { intros x. destruct (decide (x = d)) as [-> | Hx].
      - unfold gor_inv. simpl. by rewrite fn_lookup_insert.
      - eapply gor_inv_other; [done | apply extends_refl | apply Hgor]. }
    done.
Qed.

Lemma inv_run (k : nat) (s s' : state) :
  run fails k s s' -> inv fails s -> inv fails s'.
Proof.
  induction 1 as [| k s s' s'' _ IH Hstep]; [done |].
  intros Hinv. eapply inv_step; eauto.
Qed.

End CloseInvariant.

Section CloseRuns.

Import Shutdown.

Variable fails : dbid -> bool.

Lemma step_fn_sound (c : choice) (s s' : state) :
  step_fn fails c s = Some s' -> step fails s s'.
Proof.
  destruct s as [mp gs w n tr r]. unfold step_fn. simpl.
  destruct c as [| | d].
  - destruct mp as [| | | [| d todo] | | c |]; intros H; simplify_eq.
    + apply step_close_stop.
    + destruct n; simplify_eq. apply step_tasks_waited.
    + apply step_wg_add.
    + apply step_loop_end.
    + apply step_go.
    + destruct (decide (w = 0)) as [-> |]; simplify_eq. apply step_wg_waited.
    + destruct (close_step fails Dicts c) as [[c' evs] |] eqn:Hc; simplify_eq.
      * by apply step_dicts_close.
      * destruct c; simpl in Hc; simplify_eq. apply step_return.
  - destruct mp; try done. destruct n; intros H; simplify_eq.
    apply step_task_returns.
  - destruct (gs d) eqn:Hpc; intros H; simplify_eq.
    + by apply step_g_entry.
    + destruct (close_step fails d c) as [[c' evs] |] eqn:Hc; simplify_eq.
      * by eapply step_g_close.
      * destruct c; simpl in Hc; simplify_eq. by apply step_g_closed.
    + by apply step_g_done.
Qed.

Lemma run_step_first (k : nat) (s s1 s2 : state) :
  step fails s s1 -> run fails k s1 s2 -> run fails (S k) s s2.
Proof.
  intros Hstep Hrun. induction Hrun as [| k s1 s2 s3 _ IH Hlast].
  - eapply run_S; [apply run_O | done].
  - eapply run_S; [by apply IH | done].
Qed.

Lemma exec_run (cs : list choice) (s s' : state) :
  exec fails cs s = Some s' -> run fails (length cs) s s'.
Proof.
  revert s. induction cs as [| c cs IH]; intros s; simpl.
  - intros [= ->]. apply run_O.
  - destruct (step_fn fails c s) as [s1 |] eqn:Hc; [| done].
    intros Hexec. eapply run_step_first; [by eapply step_fn_sound | by apply IH].
Qed.

(** The execution of a schedule that can be followed to its end. *)
Lemma exec_run_default (cs : list choice) (s : state) :
  exec fails cs s <> None ->
  run fails (length cs) s (default s (exec fails cs s)).
Proof.
  destruct (exec fails cs s) as [s' |] eqn:Hexec; [| done].
  intros _. simpl. by apply exec_run.
Qed.

End CloseRuns.

Section CloseTermination.

Import Shutdown.

Variable fails : dbid -> bool.

Lemma gsum_insert (gs : dbid -> gpc) (d : dbid) (v : gpc) :
  (gsum (<[d := v]> gs) + grank (gs d) = gsum gs + grank v)%nat.
Proof.
  unfold gsum. simpl.
  destruct d; rewrite fn_lookup_insert, !fn_lookup_insert_ne by done; lia.
Qed.

Lemma close_step_rank (d : dbid) (c c' : close_pc) (evs : list cevent) :
  close_step fails d c = Some (c', evs) -> (crank c' < crank c)%nat.
Proof.
  destruct c; simpl; intros H; simplify_eq; simpl.
  - destruct (has_cache d); simpl; lia.
  - lia.
  - destruct (fails d); simpl; lia.
  - lia.
Qed.

(** Every step uses up some of what is left to do. *)
Lemma step_measure (s s' : state) :
  step fails s s' -> inv fails s -> (measure s' < measure s)%nat.
Proof.
  intros Hstep (Hmain & _).
  destruct Hstep as [gs w n tr r | gs w n tr r | gs w tr r | gs w n tr r
                    | d todo gs w n tr r | gs w n tr r | gs n tr r
                    | c c' evs gs w n tr r Hc | gs w n tr r
                    | d mp gs w n tr r Hpc | d c c' evs mp gs w n tr r Hpc Hc
                    | d mp gs w n tr r Hpc | d mp gs w n tr r Hpc];
    unfold measure, databases; cbn [m g tasks mrank crank length]; try lia.
  - unfold main_inv in Hmain. simpl in Hmain.
    destruct Hmain as (_ & Htodo & _).
    pose proof (gsum_insert gs d GEntry) as Hsum.
    rewrite (Htodo d) in Hsum by (by left). simpl in Hsum. lia.
  - pose proof (close_step_rank Dicts c c' evs Hc). lia.
  - match goal with |- context [<[d := ?v]> gs] =>
      pose proof (gsum_insert gs d v) as Hsum end.
    rewrite Hpc in Hsum. destruct (decide (d = Dicts)); simpl in Hsum; lia.
  - pose proof (gsum_insert gs d (GClosing c')) as Hsum.
    pose proof (close_step_rank d c c' evs Hc).
    rewrite Hpc in Hsum. simpl in Hsum. lia.
  - pose proof (gsum_insert gs d GDefer) as Hsum.
    rewrite Hpc in Hsum. simpl in Hsum. lia.
  - pose proof (gsum_insert gs d GExit) as Hsum.
    rewrite Hpc in Hsum. simpl in Hsum. lia.
Qed.

Lemma run_measure (k : nat) (s s' : state) :
  run fails k s s' -> inv fails s -> (measure s' + k <= measure s)%nat.
Proof.
  induction 1 as [| k s s' s'' Hrun IH Hstep]; intros Hinv; [lia |].
  specialize (IH Hinv).
  pose proof (step_measure s' s'' Hstep (inv_run fails k s s' Hrun Hinv)). lia.
Qed.

(** As long as [Close] has not returned, some step can be made. *)
Lemma inv_progress (s : state) :
  inv fails s -> m s <> MReturned -> exists s', step fails s s'.
Proof.
  destruct s as [mp gs w n tr r].
  intros (Hmain & Hgor & _) Hm. unfold main_inv in Hmain. simpl in *.
  destruct mp as [| | | [| d todo] | | c |].
  - eexists. apply step_close_stop.
  - destruct n; eexists; [apply step_tasks_waited | apply step_task_returns].
  - eexists. apply step_wg_add.
  - eexists. apply step_loop_end.
  - eexists. apply step_go.
  - destruct Hmain as [Hrest Hwg].
    destruct (decide (w = 0)) as [-> | Hw].
    + eexists. apply step_wg_waited.
    + rewrite Hwg in Hw. destruct (live_pos gs Hw) as [d Hd].
      specialize (Hrest d). destruct (gs d) as [| | c | |] eqn:Hpc; try done.
      * eexists. by apply (step_g_entry fails d).
      * destruct (close_step fails d c) as [[c' evs] |] eqn:Hc.
        -- eexists. by eapply (step_g_close fails d c c' evs).
        -- destruct c; simpl in Hc; simplify_eq.
           eexists. by apply (step_g_closed fails d).
      * eexists. by apply (step_g_done fails d).
  - destruct (close_step fails Dicts c) as [[c' evs] |] eqn:Hc.
    + eexists. by eapply (step_dicts_close fails c c' evs).
    + destruct c; simpl in Hc; simplify_eq. eexists. apply step_return.
  - done.
Qed.

End CloseTermination.

(** C3: in every execution of [Close], whatever the close of the
    dictionaries database does (the flush of its cache, the close of its
    engine, the logging of a failure) comes after each of the other four
    databases has completed its close: engine closed, the cache flushed
    before when there is one, and the failure logged when the engine close
    failed. *)
Theorem Close_dicts_last (fails : Shutdown.dbid -> bool) (n k : nat)
    (s : Shutdown.state) :
  Shutdown.run fails k (Shutdown.init n) s ->
  forall pre ev post,
    Shutdown.trace s = pre ++ ev :: post ->
    Shutdown.is_dicts_close ev ->
    forall d, d <> Shutdown.Dicts -> Shutdown.close_completed fails d pre.
Proof.
  intros Hrun.
  destruct (inv_run fails k _ _ Hrun (inv_init fails n)) as (_ & _ & _ & _ & _ & Hlast).
  exact Hlast.
Qed.

Lemma Close_dicts_last_witness :
  Shutdown.close_completed Shutdown.trees_fails Shutdown.Trees
    [Shutdown.CloseStop;
     Shutdown.LogDebug "waiting for storage tasks to finish";
     Shutdown.LogDebug "storage tasks to finished";
     Shutdown.CacheFlush Shutdown.Trees;
     Shutdown.DBClose Shutdown.Trees;
     Shutdown.LogCloseError Shutdown.Trees;
     Shutdown.DBClose Shutdown.Main;
     Shutdown.CacheFlush Shutdown.Segments;
     Shutdown.DBClose Shutdown.Segments;
     Shutdown.CacheFlush Shutdown.Dimensions;
     Shutdown.DBClose Shutdown.Dimensions].
Proof.
  assert (Hrun : Shutdown.run Shutdown.trees_fails (length Shutdown.sample_schedule)
                   (Shutdown.init 4) Shutdown.sample_final).
  { apply exec_run_default. vm_compute. discriminate. }
  refine (Close_dicts_last Shutdown.trees_fails 4 (length Shutdown.sample_schedule)
            Shutdown.sample_final Hrun
            [Shutdown.CloseStop;
             Shutdown.LogDebug "waiting for storage tasks to finish";
             Shutdown.LogDebug "storage tasks to finished";
             Shutdown.CacheFlush Shutdown.Trees;
             Shutdown.DBClose Shutdown.Trees;
             Shutdown.LogCloseError Shutdown.Trees;
             Shutdown.DBClose Shutdown.Main;
             Shutdown.CacheFlush Shutdown.Segments;
             Shutdown.DBClose Shutdown.Segments;
             Shutdown.CacheFlush Shutdown.Dimensions;
             Shutdown.DBClose Shutdown.Dimensions]
            (Shutdown.CacheFlush Shutdown.Dicts)
            [Shutdown.DBClose Shutdown.Dicts] _ (or_introl eq_refl)
            Shutdown.Trees _).
  - vm_compute. reflexivity.
  - discriminate.
Defined.

(** C8: every execution of [Close] is finite; as long as [Close] has not
    returned a next step can be made, whichever engine closes have failed;
    what [Close] returns is [nil]; and when it has returned, the close of
    each of the five databases has been carried out, a failed one being
    logged. *)
Theorem Close_returns_nil (fails : Shutdown.dbid -> bool) (n k : nat)
    (s : Shutdown.state) :
  Shutdown.run fails k (Shutdown.init n) s ->
  (k <= Shutdown.measure (Shutdown.init n))%nat /\
  (Shutdown.result s = None -> exists s', Shutdown.step fails s s') /\
  (Shutdown.result s = None \/ Shutdown.result s = Some None) /\
  (Shutdown.result s = Some None ->
     (forall s', ~ Shutdown.step fails s s') /\
     forall d, Shutdown.close_completed fails d (Shutdown.trace s)).
Proof.
  intros Hrun.
  pose proof (inv_run fails k _ _ Hrun (inv_init fails n)) as Hinv.
  pose proof (run_measure fails k _ _ Hrun (inv_init fails n)) as Hk.
  split; [lia |]. split; [| split].
  - intros Hres. apply (inv_progress fails s Hinv).
    destruct Hinv as (_ & _ & _ & Hr & _). intros Hm. rewrite Hm in Hr. congruence.
  - destruct Hinv as (_ & _ & _ & Hr & _). rewrite Hr.
    destruct (Shutdown.m s); auto.
  - intros Hres. destruct Hinv as (Hmain & Hgor & _ & Hr & Htasks & _).
    assert (Hm : Shutdown.m s = Shutdown.MReturned).
    { rewrite Hres in Hr. destruct (Shutdown.m s); done. }
    unfold Shutdown.main_inv in Hmain. rewrite Hm in Hmain.
    destruct Hmain as [Hall Hdicts]. split.
    + intros s' Hstep. destruct Hstep; simpl in *; try done;
        match goal with H : _ ?d = _ |- _ => rewrite (Hall d) in H; done end.
    + intros d. destruct (decide (d = Shutdown.Dicts)) as [-> | Hd]; [done |].
      specialize (Hgor d). unfold Shutdown.gor_inv in Hgor.
      rewrite (Hall d) in Hgor. by apply Hgor.
Qed.

Lemma Close_returns_nil_witness :
  Shutdown.result Shutdown.sample_final = Some None /\
  Shutdown.close_completed Shutdown.trees_fails Shutdown.Trees
    (Shutdown.trace Shutdown.sample_final) /\
  Shutdown.close_completed Shutdown.trees_fails Shutdown.Dicts
    (Shutdown.trace Shutdown.sample_final).
Proof.
  assert (Hrun : Shutdown.run Shutdown.trees_fails (length Shutdown.sample_schedule)
                   (Shutdown.init 4) Shutdown.sample_final).
  { apply exec_run_default. vm_compute. discriminate. }
  assert (Hres : Shutdown.result Shutdown.sample_final = Some None).
  { vm_compute. reflexivity. }
  pose proof (Close_returns_nil Shutdown.trees_fails 4
                (length Shutdown.sample_schedule) Shutdown.sample_final Hrun)
    as (_ & _ & _ & Hret).
  split; [exact Hres |].
  destruct (Hret Hres) as [_ Hall]. split; apply Hall.
Defined.

(** ** Construction *)

Section NewOutcome.

Import Construction.

Variables (e : env) (c : Orchestrator.config).

Lemma bind_ok {A B : Type} (x : M A) (k : A -> M B) (w w' : world) (a : A) :
  x w = (Ok a, w') -> bind x k w = k a w'.
Proof. unfold bind. by intros ->. Qed.

Lemma bind_err {A B : Type} (x : M A) (k : A -> M B) (w w' : world) (err : error) :
  x w = (Err err, w') -> bind x k w = (Err err, w').
Proof. unfold bind. by intros ->. Qed.

Lemma bind_blocked {A B : Type} (x : M A) (k : A -> M B) (w w' : world) :
  x w = (Blocked, w') -> bind x k w = (Blocked, w').
Proof. unfold bind. by intros ->. Qed.

Lemma call_ok (o : op) (w : world) :
  outcome e o = None ->
  call e o w = (Ok tt, mk_world (calls w ++ [o]) (open_handles w) (closed_handles w)
                         (inline w) (started w) (wg_tasks w)).
Proof. unfold call. by intros ->. Qed.

Lemma call_fails (o : op) (w : world) (err : error) :
  outcome e o = Some err ->
  call e o w = (Err err, mk_world (calls w ++ [o]) (open_handles w) (closed_handles w)
                           (inline w) (started w) (wg_tasks w)).
Proof. unfold call. by intros ->. Qed.

(** Once the engine is open [newBadger] does not return: it is in the
    task of the database. *)
Lemma newBadger_blocks (nm : string) (p : Prefix.prefix) (codec : bool) (w : world) :
  outcome e (OpMkdirAll nm) = None ->
  outcome e (OpBadgerOpen nm) = None ->
  newBadger e nm p codec w =
    (Blocked,
     mk_world (calls w ++ [OpMkdirAll nm; OpBadgerOpen nm]) (open_handles w ++ [nm])
       (closed_handles w) (inline w ++ [Maintenance.BadgerGC nm]) (started w)
       (wg_tasks w)).
Proof.
  intros Hdir Hopen. unfold newBadger.
  rewrite (bind_ok _ _ _ _ _ (call_ok _ w Hdir)).
  rewrite (bind_ok _ _ _ _ _ (call_ok _ _ Hopen)).
  simpl. by rewrite <- app_assoc.
Qed.

Lemma newBadger_mkdir_fails (nm : string) (p : Prefix.prefix) (codec : bool)
    (w : world) (err : error) :
  outcome e (OpMkdirAll nm) = Some err ->
  newBadger e nm p codec w =
    (Err err, mk_world (calls w ++ [OpMkdirAll nm]) (open_handles w)
                (closed_handles w) (inline w) (started w) (wg_tasks w)).
Proof.
  intros Hdir. unfold newBadger.
  by rewrite (bind_err _ _ _ _ _ (call_fails _ w err Hdir)).
Qed.

Lemma newBadger_open_fails (nm : string) (p : Prefix.prefix) (codec : bool)
    (w : world) (err : error) :
  outcome e (OpMkdirAll nm) = None ->
  outcome e (OpBadgerOpen nm) = Some err ->
  newBadger e nm p codec w =
    (Err err, mk_world (calls w ++ [OpMkdirAll nm; OpBadgerOpen nm]) (open_handles w)
                (closed_handles w) (inline w) (started w) (wg_tasks w)).
Proof.
  intros Hdir Hopen. unfold newBadger.
  rewrite (bind_ok _ _ _ _ _ (call_ok _ w Hdir)).
  rewrite (bind_err _ _ _ _ _ (call_fails _ _ err Hopen)).
  simpl. by rewrite <- app_assoc.
Qed.

(** The three ways in which a call of [New] goes. *)
Lemma New_cases :
  New e c empty_world =
    match outcome e (OpMkdirAll "main") with
    | Some err =>
        (Returned None (Some err), mk_world [OpMkdirAll "main"] [] [] [] [] 0)
    | None =>
        match outcome e (OpBadgerOpen "main") with
        | Some err =>
            (Returned None (Some err),
             mk_world [OpMkdirAll "main"; OpBadgerOpen "main"] [] [] [] [] 0)
        | None =>
            (NoReturn,
             mk_world [OpMkdirAll "main"; OpBadgerOpen "main"] ["main"] []
               [Maintenance.BadgerGC "main"] [] 0)
        end
    end.
Proof.
  unfold New, New_body.
  destruct (outcome e (OpMkdirAll "main")) as [err |] eqn:Hdir.
  - by erewrite bind_err by (by apply newBadger_mkdir_fails).
  - destruct (outcome e (OpBadgerOpen "main")) as [err |] eqn:Hopen.
    + by erewrite bind_err by (by apply newBadger_open_fails).
    + by erewrite bind_blocked by (by apply newBadger_blocks).
Qed.

End NewOutcome.

(** While the stop channel is open a task entered by a plain call has not
    returned, however many times its timer has expired. *)
Lemma plain_call_waits_for_stop {A : Type} (interval : Z) (f : list A)
    (sched : list Periodic.select_case) :
  snd (Periodic.maintenanceTask interval f false sched) = true <->
  In Periodic.CaseStop sched.
Proof.
  unfold Periodic.maintenanceTask, Periodic.periodicTask.
  generalize (Periodic.Lock :: map Periodic.Call f ++ [Periodic.Unlock]).
  intros g.
  destruct (Periodic.periodicTask_loop interval g sched) as [tr r] eqn:Hloop.
  simpl. replace r with (snd (Periodic.periodicTask_loop interval g sched))
    by (by rewrite Hloop).
  clear Hloop tr r. induction sched as [| [|] sched IH]; simpl.
  - split; [done | intros []].
  - split; [by left | done].
  - destruct (Periodic.periodicTask_loop interval g sched) as [tr r]; simpl in *.
    rewrite IH. split; [by right | by intros [? | ?]].
Qed.





(** * Further properties *)

(** ** Keys *)

(** X1: [key] is injective; the key of the empty string is the prefix
    alone, which [trim] refuses; and whenever [trim] succeeds its result is
    not empty and is the part of [k] after the first [len(p)] bytes, so
    that putting those bytes back gives [k]. *)
Theorem prefix_key_trim_tail (p : Prefix.prefix) (k : list byte) :
  (forall a b, Prefix.key p a = Prefix.key p b -> a = b) /\
  Prefix.trim p (Prefix.key p []) = ([], false) /\
  (snd (Prefix.trim p k) = true ->
     fst (Prefix.trim p k) <> [] /\
     take (length p) k ++ fst (Prefix.trim p k) = k).
Proof.
  split; [| split].
  - intros a b. unfold Prefix.key. apply app_inv_head.
  - unfold Prefix.trim, Prefix.key. rewrite app_nil_r.
    by rewrite Z.ltb_irrefl.
  - unfold Prefix.trim.
    destruct (Z.ltb_spec (Z.of_nat (length p)) (Z.of_nat (length k))) as [Hlt | Hge];
      simpl; [intros _ | done].
    split; [| apply take_drop].
    intros Hnil. apply (f_equal length) in Hnil.
    rewrite length_drop in Hnil. simpl in Hnil. lia.
Qed.

Lemma prefix_key_trim_tail_witness :
  list_byte_of_string "ab" = list_byte_of_string "ab" /\
  fst (Prefix.trim Prefix.treePrefix (list_byte_of_string "t:ab")) <> [] /\
  take 2 (list_byte_of_string "t:ab")
    ++ fst (Prefix.trim Prefix.treePrefix (list_byte_of_string "t:ab"))
    = list_byte_of_string "t:ab".
Proof.
  pose proof (prefix_key_trim_tail Prefix.treePrefix (list_byte_of_string "t:ab"))
    as (Hinj & _ & Htail).
  split.
  - apply (Hinj (list_byte_of_string "ab") (list_byte_of_string "ab")). reflexivity.
  - apply Htail. reflexivity.
Defined.

(** X2: keys built with two different prefixes among those of the
    orchestrator's databases are different, whatever the strings: the
    namespaces of the databases do not meet. *)
Theorem prefix_keys_disjoint (p q : Prefix.prefix) (a b : list byte) :
  In p Stats.prefixes -> In q Stats.prefixes ->
  Prefix.key p a = Prefix.key q b -> p = q /\ a = b.
Proof.
  unfold Stats.prefixes. simpl.
  intros [<- | [<- | [<- | [<- | []]]]] [<- | [<- | [<- | [<- | []]]]];
    vm_compute; intros Heq; simplify_eq; done.
Qed.

Lemma prefix_keys_disjoint_witness :
  Prefix.segmentPrefix = Prefix.segmentPrefix /\
  list_byte_of_string "app.cpu" = list_byte_of_string "app.cpu".
Proof.
  apply (prefix_keys_disjoint Prefix.segmentPrefix Prefix.segmentPrefix
           (list_byte_of_string "app.cpu") (list_byte_of_string "app.cpu")).
  - vm_compute. tauto.
  - vm_compute. tauto.
  - reflexivity.
Defined.

(** ** Value-log garbage collection, both copies *)

(** X3: the second copy of [runGC] logs its start, calls [Flatten(2)] once
    (a failure of it is logged and the collection goes on), then calls
    value-log GC until the first answer that is not [nil]; after [k]
    successes it has made [k + 1] calls and returns [true] exactly when the
    answer is [ErrNoRewrite] and [k > 0]; any other error is logged as a
    warning and gives [false].  It has not returned while all the answers
    are [nil]. *)
Theorem runGC_second_copy_spec (nm : string) (ratio : float64)
    (flatten : go_error) (k : nat) (e : error) (rest : list go_error) :
  DbV2.runGC nm ratio flatten (replicate k None ++ Some e :: rest) =
    (gc_head nm flatten ++ gc_calls nm ratio (S k) ++
       match e with
       | ErrNoRewrite => []
       | _ => [EvLog WarnLevel nm "failed to run GC" (Some e)]
       end,
     Some match e with
          | ErrNoRewrite => bool_decide (0 < k)%nat
          | _ => false
          end) /\
  snd (DbV2.runGC nm ratio flatten (replicate k None)) = None.
Proof.
  split; [apply DbV2_runGC_spec | apply DbV2_runGC_running].
Qed.

Lemma runGC_loops_agree (nm : string) (ratio : float64)
    (results : list go_error) (b1 b2 : bool) :
  fst (DbV1.runGC_loop nm ratio results b1) = fst (DbV2.runGC_loop nm ratio results b2) /\
  (snd (DbV1.runGC_loop nm ratio results b1) = None <->
   snd (DbV2.runGC_loop nm ratio results b2) = None).
Proof.
  revert b1 b2. induction results as [| [[| msg] |] rest IH]; intros b1 b2; simpl.
  - done.
  - done.
  - done.
  - specialize (IH true true).
    destruct (DbV1.runGC_loop nm ratio rest true),
             (DbV2.runGC_loop nm ratio rest true). simpl in *.
    destruct IH as [-> IH]. done.
Qed.

(** X4: the first copy of [runGC] never returns [true], whatever the
    engine answers; it makes the same calls as the second copy and returns
    on the same answers. *)
Theorem runGC_first_copy_never_true (nm : string) (ratio : float64)
    (flatten : go_error) (results : list go_error) :
  snd (DbV1.runGC nm ratio flatten results) <> Some true /\
  fst (DbV1.runGC nm ratio flatten results)
    = fst (DbV2.runGC nm ratio flatten results) /\
  (snd (DbV1.runGC nm ratio flatten results) = None <->
   snd (DbV2.runGC nm ratio flatten results) = None).
Proof.
  split; [| split].
  - destruct (DbV1_runGC_false nm ratio flatten results) as [-> | ->]; done.
  - unfold DbV1.runGC, DbV2.runGC.
    pose proof (runGC_loops_agree nm ratio results false false) as [Hfst _].
    destruct (DbV1.runGC_loop nm ratio results false),
             (DbV2.runGC_loop nm ratio results false). simpl in *. by rewrite Hfst.
  - unfold DbV1.runGC, DbV2.runGC.
    pose proof (runGC_loops_agree nm ratio results false false) as [_ Hsnd].
    destruct (DbV1.runGC_loop nm ratio results false),
             (DbV2.runGC_loop nm ratio results false). simpl in *. exact Hsnd.
Qed.

(** ** The size of a database directory *)

Lemma Ext_from_spec (path acc : string) :
  (Stats.plain path = true /\ DbV2.Ext_from path acc = acc) \/
  (exists pre rest,
     path = String.append pre (String "."%char rest) /\
     Stats.plain rest = true /\ DbV2.Ext_from path acc = String "."%char rest) \/
  (exists pre rest,
     path = String.append pre (String "/"%char rest) /\
     Stats.plain rest = true /\ DbV2.Ext_from path acc = EmptyString).
Proof.
  revert acc. induction path as [| c path IH]; intros acc; simpl.
  - left. done.
  - destruct (Ascii.eqb_spec c "/"%char) as [-> | Hsep]; simpl.
    + right.
      destruct (IH EmptyString)
        as [[Hp He] | [(pre & rest & -> & Hp & He) | (pre & rest & -> & Hp & He)]].
      * right. exists EmptyString, path. done.
      * left. exists (String "/"%char pre), rest. done.
      * right. exists (String "/"%char pre), rest. done.
    + destruct (Ascii.eqb_spec c "."%char) as [-> | Hdot]; simpl.
      * right.
        destruct (IH (String "."%char path))
          as [[Hp He] | [(pre & rest & -> & Hp & He) | (pre & rest & -> & Hp & He)]].
        -- left. exists EmptyString, path. done.
        -- left. exists (String "."%char pre), rest. done.
        -- right. exists (String "."%char pre), rest. done.
      * destruct (IH acc)
          as [[Hp He] | [(pre & rest & -> & Hp & He) | (pre & rest & -> & Hp & He)]].
        -- left. done.
        -- right. left. exists (String c pre), rest. done.
        -- right. right. exists (String c pre), rest. done.
Qed.

(** X5: [filepath.Ext] as the walk uses it: the extension is empty when the
    path has neither a dot nor a separator, or when nothing but plain
    characters follows its last separator; otherwise it is the last dot of
    the path with the plain characters that follow it. *)
Theorem Ext_spec (path : string) :
  (Stats.plain path = true /\ DbV2.Ext path = EmptyString) \/
  (exists pre rest,
     path = String.append pre (String "."%char rest) /\
     Stats.plain rest = true /\ DbV2.Ext path = String "."%char rest) \/
  (exists pre rest,
     path = String.append pre (String "/"%char rest) /\
     Stats.plain rest = true /\ DbV2.Ext path = EmptyString).
Proof. apply Ext_from_spec. Qed.

Lemma int64_wrap_small (z : Z) : 0 <= z < 2 ^ 63 -> int64_wrap z = z.
Proof.
  intros Hz. unfold int64_wrap.
  rewrite Z.mod_small by lia. lia.
Qed.

Lemma walk_size_error (pre post : list DbV2.walk_entry) (e : DbV2.walk_entry)
    (acc : Z) :
  DbV2.w_err e = true ->
  DbV2.walk_size (pre ++ e :: post) acc = DbV2.walk_size pre acc.
Proof.
  intros He. revert acc. induction pre as [| x pre IH]; intros acc; simpl.
  - by rewrite He.
  - destruct (DbV2.w_err x); [done |].
    destruct (_ || _); apply IH.
Qed.

Lemma walk_size_sum (entries : list DbV2.walk_entry) (acc : Z) :
  Forall (fun e => DbV2.w_err e = false /\ 0 <= DbV2.w_size e) entries ->
  0 <= acc -> acc + Stats.counted_sum entries < 2 ^ 63 ->
  DbV2.walk_size entries acc = acc + Stats.counted_sum entries.
Proof.
  intros Hall. revert acc.
  induction Hall as [| e entries [Herr Hsize] Hall IH]; intros acc Hacc Hsum; simpl.
  - lia.
  - assert (Hrest : 0 <= Stats.counted_sum entries).
    { clear -Hall. induction Hall as [| x l [_ Hx] _ IHl]; simpl; [lia |].
      destruct (Stats.counted x); lia. }
    simpl in Hsum. rewrite Herr. unfold Stats.counted in *.
    destruct (String.eqb (DbV2.Ext (DbV2.w_path e)) ".sst"
              || String.eqb (DbV2.Ext (DbV2.w_path e)) ".vlog").
    + rewrite int64_wrap_small by lia. rewrite IH; lia.
    + rewrite IH; lia.
Qed.

(** X6: [calculateDBSize] ignores everything from the first entry on that
    the walk reports with an error; and when the walk reports no error, no
    size is negative and the counted sizes stay below 2^63, the result is
    the sum of the sizes of the entries whose extension is [.sst] or
    [.vlog]. *)
Theorem calculateDBSize_spec (entries post : list DbV2.walk_entry)
    (e : DbV2.walk_entry) :
  (DbV2.w_err e = true ->
     DbV2.calculateDBSize (entries ++ e :: post) = DbV2.calculateDBSize entries) /\
  (Forall (fun x => DbV2.w_err x = false /\ 0 <= DbV2.w_size x) entries ->
     Stats.counted_sum entries < 2 ^ 63 ->
     DbV2.calculateDBSize entries = Stats.counted_sum entries).
Proof.
  unfold DbV2.calculateDBSize. split.
  - intros He. by apply walk_size_error.
  - intros Hall Hsum. rewrite walk_size_sum; [lia | done | lia | lia].
Qed.

Lemma calculateDBSize_spec_witness :
  DbV2.calculateDBSize
    (DbV2.files_before tick_on_small_dir
       ++ DbV2.mk_entry "/data/main/LOCK" 0 true
       :: [DbV2.mk_entry "/data/main/000002.sst" 900 false])
    = DbV2.calculateDBSize (DbV2.files_before tick_on_small_dir) /\
  DbV2.calculateDBSize (DbV2.files_before tick_on_small_dir) = 50.
Proof.
  pose proof (calculateDBSize_spec (DbV2.files_before tick_on_small_dir)
                [DbV2.mk_entry "/data/main/000002.sst" 900 false]
                (DbV2.mk_entry "/data/main/LOCK" 0 true)) as [Herr Hsum].
  split.
  - apply Herr. reflexivity.
  - apply Hsum.
    + repeat (apply List.Forall_cons; [split; [reflexivity | vm_compute; discriminate] |]).
      apply List.Forall_nil.
    + vm_compute. reflexivity.
Defined.

(** ** The per-database GC task, tick after tick *)

(** X7: with a non-zero threshold, a tick that follows a reclaim pass
    which left the directory not empty, and that finds the directory grown
    by no more than the threshold since, does nothing: the pass is not
    repeated until the directory has grown by more than the threshold. *)
Theorem badgerGCTask_quiet_after_pass (T : ByteSize) (d d1 : db)
    (env1 env2 : DbV2.gc_env) (tr1 : list event) :
  T <> 0 ->
  DbV2.badgerGCTask T d env1 = Some (d1, tr1) -> tr1 <> [] ->
  DbV2.calculateDBSize (DbV2.files_after env1) <> 0 ->
  DbV2.calculateDBSize (DbV2.files_before env2)
    <= DbV2.calculateDBSize (DbV2.files_after env1) + T ->
  DbV2.badgerGCTask T d1 env2 = Some (d1, []).
Proof.
  intros HT Htick Hran Hsize Hgrow. unfold DbV2.badgerGCTask in Htick.
  destruct (DbV2.gc_due T d env1); [| by simplify_eq].
  destruct (DbV2.runGC (name d) f64_0_7 (DbV2.flatten_res env1) (DbV2.gc_results env1))
    as [tr [b |]]; [| done].
  injection Htick as <- _.
  unfold DbV2.badgerGCTask.
  destruct (DbV2.gc_due T _ env2) eqn:Hdue; [| done].
  apply gc_due_iff in Hdue. simpl in Hdue. lia.
Qed.

Lemma badgerGCTask_quiet_after_pass_witness :
  DbV2.badgerGCTask 100 (mk_db "main" false 0 0 50 2) tick_on_small_dir
    = Some (mk_db "main" false 0 0 50 2, []).
Proof.
  apply (badgerGCTask_quiet_after_pass 100 (mk_db "main" false 0 0 0 1)
           (mk_db "main" false 0 0 50 2) tick_on_small_dir tick_on_small_dir
           (reclaim_pass "main" None 0 ErrNoRewrite ++ [EvGcCountInc "main"])).
  - discriminate.
  - reflexivity.
  - discriminate.
  - vm_compute. discriminate.
  - vm_compute. discriminate.
Defined.


(** ** The read-only queries *)

Section Queries.

Context {V : Type}.
Variable kv : db -> option V.

Lemma put_notin (l : list db) (acc : gmap string V) (nm : string) :
  ~ In nm (map name l) ->
  foldl (Stats.put kv) acc l !! nm = acc !! nm.
Proof.
  revert acc. induction l as [| d l IH]; intros acc Hnm; simpl; [done |].
  simpl in Hnm. rewrite IH by tauto. unfold Stats.put.
  destruct (kv d); [| done]. rewrite lookup_insert_ne; [done | tauto].
Qed.

Lemma put_sound (l : list db) (acc : gmap string V) (nm : string) (v : V) :
  foldl (Stats.put kv) acc l !! nm = Some v ->
  acc !! nm = Some v \/ exists d, In d l /\ name d = nm /\ kv d = Some v.
Proof.
  revert acc. induction l as [| d l IH]; intros acc; simpl; [by left |].
  intros Hl. apply IH in Hl as [Hl | (d' & Hin & Hnm & Hkv)].
  - unfold Stats.put in Hl. destruct (kv d) as [w |] eqn:Hd; [| by left].
    destruct (decide (name d = nm)) as [Heq | Hne].
    + rewrite Heq, lookup_insert_eq in Hl. right. exists d.
      split; [by left |]. split; [done | congruence].
    + rewrite lookup_insert_ne in Hl by done. by left.
  - right. exists d'. split; [by right | done].
Qed.

Lemma put_complete (l : list db) (acc : gmap string V) (d : db) :
  NoDup (map name l) -> In d l ->
  foldl (Stats.put kv) acc l !! name d =
    match kv d with
    | Some v => Some v
    | None => acc !! name d
    end.
Proof.
  revert acc. induction l as [| x l IH]; intros acc Hnd Hin; simpl; [done |].
  simpl in Hnd. apply NoDup_cons in Hnd as [Hx Hnd].
  destruct Hin as [-> | Hin].
  - rewrite put_notin by (intros H; apply Hx; by apply list_elem_of_In).
    unfold Stats.put. destruct (kv d); [by rewrite lookup_insert_eq | done].
  - rewrite IH by done. destruct (kv d) eqn:Hd; [done |].
    unfold Stats.put. destruct (kv x); [| done].
    rewrite lookup_insert_ne; [done |].
    intros Heq. apply Hx. rewrite Heq. apply list_elem_of_In. by apply in_map.
Qed.

Lemma put_is_Some (l : list db) (acc : gmap string V) (nm : string) :
  is_Some (foldl (Stats.put kv) acc l !! nm) <->
  is_Some (acc !! nm) \/ exists d, In d l /\ name d = nm /\ is_Some (kv d).
Proof.
  revert acc. induction l as [| d l IH]; intros acc; simpl.
  - split; [by left | intros [H | (d & [] & _)]; done].
  - rewrite IH. unfold Stats.put. split.
    + intros [Hacc | (d' & Hin & Hnm & Hkv)].
      * destruct (kv d) as [w |] eqn:Hd; [| by left].
        destruct (decide (name d = nm)) as [Heq | Hne].
        -- right. exists d. rewrite Hd. eauto.
        -- rewrite lookup_insert_ne in Hacc by done. by left.
      * right. exists d'. eauto.
    + intros [Hacc | (d' & [-> | Hin] & Hnm & Hkv)].
      * left. destruct (kv d); [| done].
        destruct (decide (name d = nm)) as [Heq | Hne].
        -- by rewrite Heq, lookup_insert_eq.
        -- by rewrite lookup_insert_ne.
      * left. destruct Hkv as [w Hw]. rewrite Hw, Hnm. by rewrite lookup_insert_eq.
      * right. exists d'. eauto.
Qed.

End Queries.

Lemma foldl_same {A B : Type} (f g : A -> B -> A) (l : list B) (a : A) :
  (forall x y, f x y = g x y) -> foldl f a l = foldl g a l.
Proof.
  intros Hfg. revert a. induction l as [| y l IH]; intros a; simpl; [done |].
  by rewrite Hfg, IH.
Qed.

Lemma DiskUsage_put (s : Orchestrator.Storage) :
  Orchestrator.DiskUsage s =
    foldl (Stats.put (fun d => Some (db_size d))) ∅ (Orchestrator.databases s).
Proof. reflexivity. Qed.

Lemma CacheStats_put (csize : db -> Z) (s : Orchestrator.Storage) :
  Stats.CacheStats csize s =
    foldl (Stats.put (fun d => if has_cache d then Some (csize d) else None)) ∅
          (Orchestrator.databases s).
Proof.
  unfold Stats.CacheStats. apply foldl_same.
  intros acc d. unfold Stats.put. by destruct (has_cache d).
Qed.

(** X8: every entry of [DiskUsage] is the size of one of the databases,
    under its name; and when the names of the databases are distinct, as
    [New] makes them, each database has its entry. *)
Theorem DiskUsage_lookup (s : Orchestrator.Storage) :
  (forall nm v,
     Orchestrator.DiskUsage s !! nm = Some v ->
     exists d, In d (Orchestrator.databases s) /\ name d = nm /\ v = db_size d) /\
  (NoDup (map name (Orchestrator.databases s)) ->
   forall d, In d (Orchestrator.databases s) ->
             Orchestrator.DiskUsage s !! name d = Some (db_size d)).
Proof.
  rewrite DiskUsage_put. split.
  - intros nm v Hl. apply put_sound in Hl as [Hl | (d & Hin & Hnm & Hkv)].
    + by rewrite lookup_empty in Hl.
    + exists d. split; [done |]. split; [done | congruence].
  - intros Hnd d Hin. by rewrite put_complete.
Qed.

Lemma DiskUsage_lookup_witness :
  Orchestrator.DiskUsage (sample_storage 0) !! "trees"%string = Some 6000 /\
  exists d, In d (Orchestrator.databases (sample_storage 0)) /\
            name d = "dicts"%string /\ 120 = db_size d.
Proof.
  pose proof (DiskUsage_lookup (sample_storage 0)) as [Hsound Hcomplete].
  assert (Hnames : NoDup (map name (Orchestrator.databases (sample_storage 0)))).
  { apply (bool_decide_unpack _). vm_compute. reflexivity. }
  split.
  - apply (Hcomplete Hnames (Orchestrator.trees (sample_storage 0))).
    simpl. tauto.
  - apply Hsound. vm_compute. reflexivity.
Defined.

(** X9: every entry of [CacheStats] is the cache size of a database that
    has a cache, under its name; a name that [CacheStats] reports is
    reported by [DiskUsage] as well; and when the names are distinct, a
    database has an entry exactly when it has a cache. *)
Theorem CacheStats_lookup (csize : db -> Z) (s : Orchestrator.Storage) :
  (forall nm v,
     Stats.CacheStats csize s !! nm = Some v ->
     exists d, In d (Orchestrator.databases s) /\ name d = nm /\
               has_cache d = true /\ v = csize d) /\
  (forall nm,
     is_Some (Stats.CacheStats csize s !! nm) ->
     is_Some (Orchestrator.DiskUsage s !! nm)) /\
  (NoDup (map name (Orchestrator.databases s)) ->
   forall d, In d (Orchestrator.databases s) ->
             Stats.CacheStats csize s !! name d
               = if has_cache d then Some (csize d) else None).
Proof.
  rewrite CacheStats_put, DiskUsage_put. split; [| split].
  - intros nm v Hl. apply put_sound in Hl as [Hl | (d & Hin & Hnm & Hkv)].
    + by rewrite lookup_empty in Hl.
    + exists d. destruct (has_cache d); [| done].
      split; [done |]. split; [done |]. split; [done | congruence].
  - intros nm Hsome. apply put_is_Some in Hsome as [Hsome | (d & Hin & Hnm & _)].
    + rewrite lookup_empty in Hsome. by destruct Hsome.
    + apply put_is_Some. right. exists d. eauto.
  - intros Hnd d Hin. rewrite put_complete by done.
    destruct (has_cache d); [done | apply lookup_empty].
Qed.

Lemma CacheStats_lookup_witness :
  Stats.CacheStats (fun d => lsm d) (sample_storage 0) !! "main"%string = None /\
  Stats.CacheStats (fun d => lsm d) (sample_storage 0) !! "trees"%string = Some 5000 /\
  is_Some (Orchestrator.DiskUsage (sample_storage 0) !! "trees"%string).
Proof.
  pose proof (CacheStats_lookup (fun d => lsm d) (sample_storage 0))
    as (_ & Hdom & Hcomplete).
  assert (Hnames : NoDup (map name (Orchestrator.databases (sample_storage 0)))).
  { apply (bool_decide_unpack _). vm_compute. reflexivity. }
  split; [| split].
  - apply (Hcomplete Hnames (Orchestrator.main (sample_storage 0))). simpl. tauto.
  - apply (Hcomplete Hnames (Orchestrator.trees (sample_storage 0))). simpl. tauto.
  - apply Hdom. vm_compute. eauto.
Defined.

(** ** The write-back task *)

(** X10: a tick of the write-back task leaves the orchestrator as it is and
    makes write-back calls only: one for each database that has a cache, in
    the order of [databases], none for a database without a cache; the names
    written back are those that [CacheStats] reports. *)
Theorem writeBackTask_spec (csize : db -> Z) (s : Orchestrator.Storage) :
  fst (Orchestrator.writeBackTask s) = s /\
  snd (Orchestrator.writeBackTask s)
    = map (fun d => EvCacheWriteBack (name d))
          (List.filter has_cache (Orchestrator.databases s)) /\
  (forall nm,
     In (EvCacheWriteBack nm) (snd (Orchestrator.writeBackTask s)) <->
     is_Some (Stats.CacheStats csize s !! nm)).
Proof.
  split; [done |].
  assert (Htr : snd (Orchestrator.writeBackTask s)
                = map (fun d => EvCacheWriteBack (name d))
                      (List.filter has_cache (Orchestrator.databases s))).
  { unfold Orchestrator.writeBackTask. simpl.
    destruct (has_cache (Orchestrator.main s)), (has_cache (Orchestrator.dimensions s)),
      (has_cache (Orchestrator.segments s)), (has_cache (Orchestrator.dicts s)),
      (has_cache (Orchestrator.trees s)); reflexivity. }
  split; [exact Htr |].
  intros nm. rewrite Htr, CacheStats_put, put_is_Some, in_map_iff. split.
  - intros (d & Hev & Hin). apply filter_In in Hin as [Hin Hc].
    right. exists d. rewrite Hc. split; [done |]. split; [congruence | eauto].
  - intros [Hsome | (d & Hin & Hnm & Hkv)].
    + rewrite lookup_empty in Hsome. by destruct Hsome.
    + exists d. split; [by rewrite Hnm |]. apply filter_In. split; [done |].
      destruct (has_cache d); [done | by destruct Hkv].
Qed.

(** ** The metrics task *)

Lemma updateMetrics_fold (csize : db -> Z) (l : list db) (gs : Stats.gauges)
    (sizes : gmap string ByteSize) (caches : gmap string Z)
    (old_sizes old_caches : gmap string float64) :
  Stats.dbSize gs = (Stats.float64_of_int <$> sizes) ∪ old_sizes ->
  Stats.cacheSize gs = (float64_of_uint <$> caches) ∪ old_caches ->
  Stats.dbSize (foldl (Stats.update_db csize) gs l)
    = (Stats.float64_of_int
         <$> foldl (Stats.put (fun d => Some (db_size d))) sizes l) ∪ old_sizes /\
  Stats.cacheSize (foldl (Stats.update_db csize) gs l)
    = (float64_of_uint
         <$> foldl (Stats.put (fun d => if has_cache d then Some (csize d) else None))
                   caches l) ∪ old_caches.
Proof.
  revert gs sizes caches. induction l as [| d l IH]; intros gs sizes caches Hs Hc;
    simpl; [done |].
  apply IH.
  - unfold Stats.update_db, Stats.put.
    destruct (has_cache d); simpl; rewrite Hs, fmap_insert, insert_union_l; done.
  - unfold Stats.update_db, Stats.put.
    destruct (has_cache d); simpl; [| done].
    by rewrite Hc, fmap_insert, insert_union_l.
Qed.

(** X11: after a tick of the metrics task the size gauges are the entries
    of [DiskUsage], converted to [float64], over what the gauges held
    before, and the cache gauges are the entries of [CacheStats] over what
    they held before: the gauge of a database's label is overwritten, the
    others are kept. *)
Theorem updateMetricsTask_spec (csize : db -> Z) (s : Orchestrator.Storage)
    (gs : Stats.gauges) :
  Stats.dbSize (Stats.updateMetricsTask csize s gs)
    = (Stats.float64_of_int <$> Orchestrator.DiskUsage s) ∪ Stats.dbSize gs /\
  Stats.cacheSize (Stats.updateMetricsTask csize s gs)
    = (float64_of_uint <$> Stats.CacheStats csize s) ∪ Stats.cacheSize gs.
Proof.
  rewrite DiskUsage_put, CacheStats_put. unfold Stats.updateMetricsTask.
  apply updateMetrics_fold; by rewrite fmap_empty, (left_id_L ∅ (∪)).
Qed.

(** ** The aggregate GC task, tick after tick *)

Lemma watch_tick_cases (diff : ByteSize) (s : Orchestrator.Storage) :
  let r := Orchestrator.watchDBSize diff Orchestrator.CollectGarbage s in
  (snd r = [EvCollectGarbage] /\
   (diff = 0 \/ diff < Orchestrator.size (fst r) - Orchestrator.size s)) \/
  (r = (s, []) /\ diff <> 0).
Proof.
  unfold Orchestrator.watchDBSize, Orchestrator.CollectGarbage. simpl.
  destruct (diff =? 0) eqn:Hz; simpl.
  - left. split; [done |]. left. lia.
  - destruct (diff <? _) eqn:Hlt; simpl.
    + left. split; [done |]. right. lia.
    + right. split; [done | lia].
Qed.

Lemma watch_ticks_bound (diff : ByteSize) (obs : list Orchestrator.Storage)
    (s : Orchestrator.Storage) :
  0 < diff ->
  Z.of_nat (length (snd (Stats.watch_ticks diff s obs))) * (diff + 1)
    <= Orchestrator.size (fst (Stats.watch_ticks diff s obs)) - Orchestrator.size s.
Proof.
  intros Hdiff. revert s. induction obs as [| o obs IH]; intros s; simpl; [lia |].
  pose proof (watch_tick_cases diff (Stats.observe s o)) as Hcase.
  destruct (Orchestrator.watchDBSize diff Orchestrator.CollectGarbage
              (Stats.observe s o)) as [s1 tr1]. simpl in Hcase.
  specialize (IH s1). destruct (Stats.watch_ticks diff s1 obs) as [s2 tr2].
  simpl in *. rewrite length_app, Nat2Z.inj_add, Z.mul_add_distr_r.
  destruct Hcase as [[-> Hgrow] | [Heq _]].
  - change (Z.of_nat (length [EvCollectGarbage])) with 1.
    destruct Hgrow as [Hzero | Hgrow]; [lia |].
    remember (Z.of_nat (length tr2) * (diff + 1)) as passes. lia.
  - injection Heq as -> ->. simpl in *. lia.
Qed.

Lemma watch_ticks_always (obs : list Orchestrator.Storage)
    (s : Orchestrator.Storage) :
  snd (Stats.watch_ticks 0 s obs) = replicate (length obs) EvCollectGarbage.
Proof.
  revert s. induction obs as [| o obs IH]; intros s; simpl; [done |].
  specialize (IH (Orchestrator.set_size (Stats.observe s o)
                    (Orchestrator.map_sum (Orchestrator.DiskUsage (Stats.observe s o))))).
  unfold Orchestrator.watchDBSize, Orchestrator.CollectGarbage. simpl.
  destruct (Stats.watch_ticks 0 _ obs) as [s2 tr2]. simpl in *. by rewrite IH.
Qed.

(** X12: over any sequence of ticks of the aggregate GC task with a
    positive threshold [diff], every full pass raises the baseline by more
    than [diff]: the baseline never goes down and the number of passes
    times [diff + 1] is at most the growth of the baseline.  With the
    threshold zero every tick runs the pass. *)
Theorem watch_ticks_spec (diff : ByteSize) (obs : list Orchestrator.Storage)
    (s : Orchestrator.Storage) :
  (0 < diff ->
     Z.of_nat (length (snd (Stats.watch_ticks diff s obs))) * (diff + 1)
       <= Orchestrator.size (fst (Stats.watch_ticks diff s obs)) - Orchestrator.size s) /\
  snd (Stats.watch_ticks 0 s obs) = replicate (length obs) EvCollectGarbage.
Proof.
  split; [apply watch_ticks_bound | apply watch_ticks_always].
Qed.

Lemma watch_ticks_spec_witness :
  Z.of_nat (length (snd (Stats.watch_ticks 256 (sample_storage 0)
                           [sample_storage 0; sample_storage 0; sample_storage 0])))
    * 257
    <= Orchestrator.size
         (fst (Stats.watch_ticks 256 (sample_storage 0)
                 [sample_storage 0; sample_storage 0; sample_storage 0])) - 0 /\
  snd (Stats.watch_ticks 256 (sample_storage 0)
         [sample_storage 0; sample_storage 0; sample_storage 0])
    = [EvCollectGarbage].
Proof.
  split.
  - apply (proj1 (watch_ticks_spec 256
                    [sample_storage 0; sample_storage 0; sample_storage 0]
                    (sample_storage 0))).
    reflexivity.
  - vm_compute. reflexivity.
Defined.

(** ** The eviction task at the edges *)

Lemma binary_round_sign (m : positive) (e : Z) :
  Stats.sign_clear (binary_round prec64 emax64 false m e).
Proof.
  unfold binary_round, binary_round_aux.
  destruct (shl_align m e _) as [mz ez].
  destruct (shr_fexp prec64 emax64 (Z.pos mz) ez loc_Exact) as [mrs e'].
  destruct (shr_fexp prec64 emax64 _ e' loc_Exact) as [mrs' e''].
  destruct (shr_m mrs'); simpl; [done | | done].
  destruct (e'' <=? emax64 - prec64); done.
Qed.

Lemma float64_of_uint_sign (x : Z) :
  0 <= x -> Stats.sign_clear (float64_of_uint x).
Proof.
  intros Hx. unfold float64_of_uint, binary_normalize.
  destruct x; [done | apply binary_round_sign | lia].
Qed.

Lemma div_by_zero_not_below (x t : float64) :
  Stats.sign_clear x -> f64_ltb (f64_div x (S754_zero false)) t = false.
Proof.
  intros Hx. unfold f64_ltb, f64_div, SFltb.
  destruct x as [sx | sx | | sx mx ex]; simpl in *; subst; simpl;
    destruct t as [st | [|] | | [|] mt et]; done.
Qed.

Lemma not_below_nan (x : float64) : f64_ltb x S754_nan = false.
Proof. unfold f64_ltb, SFltb. by destruct x. Qed.

(** The calls of a tick of the eviction task that evicts. *)
Lemma eviction_fires (memTotal alloc : Z) (s : Orchestrator.Storage) :
  f64_ltb (f64_div (float64_of_uint alloc) (float64_of_uint memTotal))
          (Orchestrator.CacheEvictThreshold (Orchestrator.cfg s)) = false ->
  snd (Orchestrator.evictionTask memTotal alloc s)
    = [EvCacheEvict (name (Orchestrator.trees s))
         (Orchestrator.CacheEvictVolume (Orchestrator.cfg s));
       EvCacheWriteBack (name (Orchestrator.dicts s));
       EvCacheWriteBack (name (Orchestrator.dimensions s));
       EvCacheWriteBack (name (Orchestrator.segments s));
       EvRuntimeGC].
Proof. unfold Orchestrator.evictionTask. by intros ->. Qed.

(** X13: the eviction task at its edges: when the total memory is zero the
    ratio is an infinity or no number, which is never below the threshold,
    so that every tick evicts whatever the threshold is; and so does every
    tick when the configured threshold is no number. *)
Theorem evictionTask_degenerate (memTotal alloc : Z) (s : Orchestrator.Storage) :
  0 <= alloc ->
  memTotal = 0 \/ Orchestrator.CacheEvictThreshold (Orchestrator.cfg s) = S754_nan ->
  snd (Orchestrator.evictionTask memTotal alloc s)
    = [EvCacheEvict (name (Orchestrator.trees s))
         (Orchestrator.CacheEvictVolume (Orchestrator.cfg s));
       EvCacheWriteBack (name (Orchestrator.dicts s));
       EvCacheWriteBack (name (Orchestrator.dimensions s));
       EvCacheWriteBack (name (Orchestrator.segments s));
       EvRuntimeGC].
Proof.
  intros Halloc [-> | Hnan]; apply eviction_fires.
  - apply div_by_zero_not_below. by apply float64_of_uint_sign.
  - rewrite Hnan. apply not_below_nan.
Qed.

Lemma evictionTask_degenerate_witness :
  snd (Orchestrator.evictionTask 0 1048576 (sample_storage 0))
    = [EvCacheEvict "trees" (S754_finite false 7205759403792794 (-56));
       EvCacheWriteBack "dicts"; EvCacheWriteBack "dimensions";
       EvCacheWriteBack "segments"; EvRuntimeGC].
Proof.
  apply (evictionTask_degenerate 0 1048576 (sample_storage 0)).
  - lia.
  - left. reflexivity.
Defined.

(** ** One periodic task: the deferred calls and the mutex *)

Section PeriodicDefer.

Context {A : Type}.
Variables (interval : Z) (f : list A).

Lemma periodicTask_loop_defer (sched : list Periodic.select_case) :
  (if snd (Periodic.periodicTask_loop interval f sched)
   then exists tr,
          fst (Periodic.periodicTask_loop interval f sched)
            = tr ++ [Periodic.TimerStop; Periodic.WgDone] /\
          forallb PeriodicFacts.before_defer tr = true
   else forallb PeriodicFacts.before_defer
          (fst (Periodic.periodicTask_loop interval f sched)) = true) /\
  (snd (Periodic.periodicTask_loop interval f sched) = true <->
   In Periodic.CaseStop sched) /\
  PeriodicFacts.resets (fst (Periodic.periodicTask_loop interval f sched))
    = replicate (Periodic.timer_rounds sched) interval.
Proof.
  induction sched as [| [|] sched IH]; simpl.
  - split; [done |]. split; [| done]. split; [done | intros []].
  - split; [by exists [] |]. split; [| done]. split; [by left | done].
  - destruct (Periodic.periodicTask_loop interval f sched) as [tr [|]];
      simpl in *; destruct IH as (Hdefer & Hret & Hresets).
    + split; [| split].
      * destruct Hdefer as (tr' & -> & Hall).
        exists (Periodic.Body f :: Periodic.TimerReset interval :: tr'). done.
      * split; [intros _; right; by apply Hret | done].
      * by rewrite Hresets.
    + split; [done |]. split; [| by rewrite Hresets].
      split; [done |]. intros [Hc | Hin]; [done | by apply Hret].
Qed.

End PeriodicDefer.

(** X14: a periodic task returns exactly when the stop signal had fired at
    its start or one of its [select]s takes the stop case; when it returns,
    the deferred [timer.Stop()] and [wg.Done()] are its last two calls and
    occur nowhere before, and while it has not returned neither has been
    called; the timer is reset once per timer expiry, always to the
    interval the task was started with. *)
Theorem periodicTask_defer_last {A : Type} (interval : Z) (f : list A)
    (stopped : bool) (sched : list Periodic.select_case) :
  (if snd (Periodic.periodicTask interval f stopped sched)
   then exists tr,
          fst (Periodic.periodicTask interval f stopped sched)
            = tr ++ [Periodic.TimerStop; Periodic.WgDone] /\
          forallb PeriodicFacts.before_defer tr = true
   else forallb PeriodicFacts.before_defer
          (fst (Periodic.periodicTask interval f stopped sched)) = true) /\
  (snd (Periodic.periodicTask interval f stopped sched) = true <->
   stopped = true \/ In Periodic.CaseStop sched) /\
  PeriodicFacts.resets (fst (Periodic.periodicTask interval f stopped sched))
    = if stopped then [] else replicate (Periodic.timer_rounds sched) interval.
Proof.
  unfold Periodic.periodicTask. destruct stopped; simpl.
  - split; [by exists [Periodic.NewTimer interval] |].
    split; [| done]. split; [by left | done].
  - pose proof (periodicTask_loop_defer interval f sched) as (Hdefer & Hret & Hresets).
    destruct (Periodic.periodicTask_loop interval f sched) as [tr [|]]; simpl in *.
    + split; [| split; [| done]].
      * destruct Hdefer as (tr' & -> & Hall).
        exists (Periodic.NewTimer interval :: Periodic.Body f :: tr'). done.
      * split; [intros _; right; by apply Hret | done].
    + split; [done |]. split; [| done].
      split; [done |]. intros [Hc | Hin]; [done | by apply Hret].
Qed.

Lemma lock_discipline_calls {A : Type} (f : list A)
    (rest : list (Periodic.mcall A)) :
  PeriodicFacts.lock_discipline (map Periodic.Call f ++ rest) true
    = PeriodicFacts.lock_discipline rest true.
Proof. induction f as [| a f IH]; simpl; done. Qed.

Lemma maintenance_loop_calls {A : Type} (interval : Z) (f : list A)
    (sched : list Periodic.select_case) :
  PeriodicFacts.lock_discipline
    (PeriodicFacts.body_calls
       (fst (Periodic.periodicTask_loop interval
               (Periodic.Lock :: map Periodic.Call f ++ [Periodic.Unlock]) sched)))
    false = Some false.
Proof.
  induction sched as [| [|] sched IH]; simpl; [done | done |].
  destruct (Periodic.periodicTask_loop interval _ sched) as [tr ret]. simpl in *.
  rewrite <- app_assoc, lock_discipline_calls. simpl. exact IH.
Qed.

(** X15: in every trace of a maintenance task, returned or not, the calls
    of its body runs follow the mutex discipline from the free mutex back
    to the free mutex: each run locks once, makes the calls of [f] only
    while it holds the mutex, and unlocks once at its end. *)
Theorem maintenanceTask_lock_discipline {A : Type} (interval : Z) (f : list A)
    (stopped : bool) (sched : list Periodic.select_case) :
  PeriodicFacts.lock_discipline
    (PeriodicFacts.body_calls
       (fst (Periodic.maintenanceTask interval f stopped sched))) false
    = Some false.
Proof.
  unfold Periodic.maintenanceTask, Periodic.periodicTask.
  destruct stopped; simpl; [done |].
  pose proof (maintenance_loop_calls interval f sched) as Hloop.
  destruct (Periodic.periodicTask_loop interval _ sched) as [tr ret]. simpl in *.
  rewrite <- app_assoc, lock_discipline_calls. simpl. exact Hloop.
Qed.


(** ** The tasks together: returning *)

Section Returning.

Import Maintenance.

Lemma steps_trans (s s' s'' : state) :
  MaintenanceFacts.steps s s' -> MaintenanceFacts.steps s' s'' ->
  MaintenanceFacts.steps s s''.
Proof.
  induction 1 as [| s s1 s2 Hstep _ IH]; [done |].
  intros Hrest. eapply MaintenanceFacts.steps_step; eauto.
Qed.

Lemma steps_one (s s' : state) : step s s' -> MaintenanceFacts.steps s s'.
Proof.
  intros Hstep. eapply MaintenanceFacts.steps_step; [done |].
  apply MaintenanceFacts.steps_refl.
Qed.

Lemma steps_reachable (s s' : state) :
  MaintenanceFacts.steps s s' -> reachable s -> reachable s'.
Proof.
  induction 1 as [| s s1 s2 Hstep _ IH]; [done |].
  intros Hreach. apply IH. by eapply reach_step.
Qed.

Lemma step_keeps_returned (s s' : state) (t : task_id) :
  step s s' ->
  (stop s = true -> stop s' = true) /\
  (pcs s t = Returned -> pcs s' t = Returned).
Proof.
  intros Hstep.
  destruct Hstep as [st mu p | mu p x Hpc | mu p x Hpc | st p x Hpc
                    | st mu p x Hpc | st mu p x Hpc | mu p x Hpc | st mu p x Hpc];
    simpl; (split; [done |]); try done;
    intros Ht; (destruct (decide (x = t)) as [-> | Hne];
                [congruence | by rewrite fn_lookup_insert_ne]).
Qed.

Lemma steps_keep_returned (s s' : state) (t : task_id) :
  MaintenanceFacts.steps s s' ->
  (stop s = true -> stop s' = true) /\
  (pcs s t = Returned -> pcs s' t = Returned).
Proof.
  induction 1 as [| s s1 s2 Hstep _ IH]; [done |].
  destruct (step_keeps_returned s s1 t Hstep) as [H1 H2].
  destruct IH as [H3 H4]. split; auto.
Qed.

Lemma returns_after_stop_reachable (s : state) :
  reachable s -> MaintenanceFacts.returns_after_stop s.
Proof.
  induction 1 as [| s s' _ IH Hstep]; [intros t Ht; done |].
  intros t Ht.
  destruct Hstep as [st mu p | mu p x Hpc | mu p x Hpc | st p x Hpc
                    | st mu p x Hpc | st mu p x Hpc | mu p x Hpc | st mu p x Hpc];
    simpl in *; try done;
    (destruct (decide (x = t)) as [-> | Hne];
     [rewrite fn_lookup_insert in Ht; unfold enter, leave in Ht;
      try destruct (is_maintenance t); done
     | rewrite fn_lookup_insert_ne in Ht by done; by apply (IH t)]).
Qed.

Lemma holds_insert_other (p : task_id -> pc) (t u : task_id) (v : pc) :
  u <> t -> holds p u -> holds (<[t := v]> p) u.
Proof. intros Hne Hu. unfold holds in *. by rewrite fn_lookup_insert_ne. Qed.

Lemma holder_differs (p : task_id -> pc) (t u : task_id) :
  holds p u -> p t <> InBody -> p t <> Unlocking -> u <> t.
Proof. intros [Hu | Hu] H1 H2 ->; done. Qed.

Lemma owned_step (s s' : state) :
  step s s' -> mutex_inv s -> MaintenanceFacts.owned s -> MaintenanceFacts.owned s'.
Proof.
  intros Hstep (_ & _ & Hmetrics) Howned. unfold MaintenanceFacts.owned in *.
  destruct Hstep as [st mu p | mu p x Hpc | mu p x Hpc | st p x Hpc
                    | st mu p x Hpc | st mu p x Hpc | mu p x Hpc | st mu p x Hpc];
    simpl in *; try done.
  - intros Hmu. destruct (Howned Hmu) as (u & Hu & Hh). exists u. split; [done |].
    apply holds_insert_other; [| done]. eapply holder_differs; eauto; congruence.
  - intros Hmu. destruct (Howned Hmu) as (u & Hu & Hh). exists u. split; [done |].
    apply holds_insert_other; [| done]. eapply holder_differs; eauto; congruence.
  - intros _. exists x. split.
    + destruct (is_maintenance x) eqn:E; [done |].
      by destruct (Hmetrics x E) as [Hc _].
    + left. apply fn_lookup_insert.
  - intros Hmu. destruct (Howned Hmu) as (u & Hu & Hh). exists u. split; [done |].
    destruct (decide (u = x)) as [-> | Hne].
    + right. rewrite fn_lookup_insert. unfold leave. by rewrite Hu.
    + by apply holds_insert_other.
  - intros Hmu. destruct (Howned Hmu) as (u & Hu & Hh). exists u. split; [done |].
    apply holds_insert_other; [| done]. eapply holder_differs; eauto; congruence.
  - intros Hmu. destruct (Howned Hmu) as (u & Hu & Hh). exists u. split; [done |].
    apply holds_insert_other; [| done]. eapply holder_differs; eauto; congruence.
Qed.

Lemma owned_reachable (s : state) : reachable s -> MaintenanceFacts.owned s.
Proof.
  induction 1 as [| s s' Hreach IH Hstep]; [intros Hmu; done |].
  eapply owned_step; eauto. by apply mutex_inv_reachable.
Qed.

(** From the [select] of the loop, with the stop channel closed. *)
Lemma return_from_select (mu : bool) (p : task_id -> pc) (t : task_id) :
  p t = Selecting ->
  exists s', MaintenanceFacts.steps (mk_state true mu p) s' /\
             pcs s' t = Returned.
Proof.
  intros Hpc. exists (mk_state true mu (<[t := Returned]> p)). split.
  - apply steps_one. by apply step_select_stop.
  - apply fn_lookup_insert.
Qed.

Lemma return_from_unlock (mu : bool) (p : task_id -> pc) (t : task_id) :
  p t = Unlocking ->
  exists s', MaintenanceFacts.steps (mk_state true mu p) s' /\
             pcs s' t = Returned.
Proof.
  intros Hpc.
  destruct (return_from_select false (<[t := Selecting]> p) t) as (s' & Hs & Hr).
  { apply fn_lookup_insert. }
  exists s'. split; [| done].
  eapply MaintenanceFacts.steps_step; [| exact Hs]. by apply step_unlock.
Qed.

Lemma return_from_body (mu : bool) (p : task_id -> pc) (t : task_id) :
  p t = InBody ->
  exists s', MaintenanceFacts.steps (mk_state true mu p) s' /\
             pcs s' t = Returned.
Proof.
  intros Hpc.
  assert (Hnext : exists s', MaintenanceFacts.steps
                               (mk_state true mu (<[t := leave t]> p)) s' /\
                             pcs s' t = Returned).
  { unfold leave. destruct (is_maintenance t).
    - apply return_from_unlock. apply fn_lookup_insert.
    - apply return_from_select. apply fn_lookup_insert. }
  destruct Hnext as (s' & Hs & Hr). exists s'. split; [| done].
  eapply MaintenanceFacts.steps_step; [| exact Hs]. by apply step_body_returns.
Qed.

Lemma return_from_lock (p : task_id -> pc) (t : task_id) :
  p t = Locking ->
  exists s', MaintenanceFacts.steps (mk_state true false p) s' /\
             pcs s' t = Returned.
Proof.
  intros Hpc.
  destruct (return_from_body true (<[t := InBody]> p) t) as (s' & Hs & Hr).
  { apply fn_lookup_insert. }
  exists s'. split; [| done].
  eapply MaintenanceFacts.steps_step; [| exact Hs]. by apply step_lock.
Qed.

(** The task that holds the mutex gives it back. *)
Lemma release (p : task_id -> pc) (u : task_id) :
  is_maintenance u = true -> holds p u ->
  exists p', MaintenanceFacts.steps (mk_state true true p) (mk_state true false p') /\
             forall x, x <> u -> p' x = p x.
Proof.
  intros Hu [Hb | Hun].
  - exists (<[u := Selecting]> (<[u := leave u]> p)). split.
    + eapply MaintenanceFacts.steps_step; [by apply step_body_returns |].
      apply steps_one. apply step_unlock.
      rewrite fn_lookup_insert. unfold leave. by rewrite Hu.
    + intros x Hx. by rewrite !fn_lookup_insert_ne.
  - exists (<[u := Selecting]> p). split.
    + apply steps_one. by apply step_unlock.
    + intros x Hx. by rewrite fn_lookup_insert_ne.
Qed.

Lemma task_can_return (s : state) (t : task_id) :
  reachable s ->
  exists s', MaintenanceFacts.steps s s' /\ pcs s' t = Returned.
Proof.
  intros Hreach. pose proof (owned_reachable s Hreach) as Howned.
  destruct s as [st mu p]. unfold MaintenanceFacts.owned in Howned. simpl in Howned.
  assert (Hclosed : exists s', MaintenanceFacts.steps (mk_state true mu p) s' /\
                               pcs s' t = Returned).
  { destruct (p t) eqn:Hpc.
    - exists (mk_state true mu (<[t := Returned]> p)). split.
      + apply steps_one. by apply step_start_stop.
      + apply fn_lookup_insert.
    - destruct mu.
      + destruct (Howned eq_refl) as (u & Hu & Hh).
        assert (Hne : t <> u).
        { intros ->. destruct Hh as [Hh | Hh]; congruence. }
        destruct (release p u Hu Hh) as (p' & Hrel & Hsame).
        destruct (return_from_lock p' t) as (s' & Hs & Hr).
        { by rewrite Hsame. }
        exists s'. split; [| done]. by eapply steps_trans.
      + by apply return_from_lock.
    - by apply return_from_body.
    - by apply return_from_unlock.
    - by apply return_from_select.
    - exists (mk_state true mu p). split; [apply MaintenanceFacts.steps_refl | done]. }
  destruct Hclosed as (s' & Hs & Hr). exists s'. split; [| done].
  eapply MaintenanceFacts.steps_step; [apply step_close | exact Hs].
Qed.

End Returning.

(** X16: a task returns only after the stop channel has been closed, the
    channel stays closed, and a task that has returned makes no further
    step: in whatever the tasks do afterwards it stays returned. *)
Theorem returned_is_final (s s' : Maintenance.state) (t : Maintenance.task_id) :
  Maintenance.reachable s -> MaintenanceFacts.steps s s' ->
  Maintenance.pcs s t = Maintenance.Returned ->
  Maintenance.stop s = true /\ Maintenance.stop s' = true /\
  Maintenance.pcs s' t = Maintenance.Returned.
Proof.
  intros Hreach Hsteps Ht.
  pose proof (returns_after_stop_reachable s Hreach t Ht) as Hstop.
  destruct (steps_keep_returned s s' t Hsteps) as [H1 H2]. auto.
Qed.

(** X17: in every reachable state the maintenance mutex is locked exactly
    when a maintenance task is between its [Lock] and its [Unlock]: the
    mutex is never left locked with no task to unlock it. *)
Theorem mutex_locked_iff_held (s : Maintenance.state) :
  Maintenance.reachable s ->
  (Maintenance.mutex s = true <->
   exists t, Maintenance.is_maintenance t = true /\
             Maintenance.holds (Maintenance.pcs s) t).
Proof.
  intros Hreach. split.
  - apply (owned_reachable s Hreach).
  - intros (t & Ht & Hh).
    destruct (mutex_inv_reachable s Hreach) as (_ & Hlocked & _). eauto.
Qed.

Lemma mutex_locked_iff_held_witness :
  exists t, Maintenance.is_maintenance t = true /\
            Maintenance.holds (Maintenance.pcs gc_in_body) t.
Proof.
  apply (proj1 (mutex_locked_iff_held gc_in_body gc_in_body_reachable)).
  reflexivity.
Defined.

(** X18: from every reachable state, whoever holds the mutex and wherever
    the tasks are, the tasks of any given list can all be brought to
    return: once the stop channel is closed nothing keeps [wg.Wait()] of
    [Close] from being passed. *)
Theorem tasks_can_return (ts : list Maintenance.task_id) (s : Maintenance.state) :
  Maintenance.reachable s ->
  exists s', MaintenanceFacts.steps s s' /\
             forall t, In t ts -> Maintenance.pcs s' t = Maintenance.Returned.
Proof.
  revert s. induction ts as [| t ts IH]; intros s Hreach.
  - exists s. split; [apply MaintenanceFacts.steps_refl | intros t []].
  - destruct (IH s Hreach) as (s1 & Hs1 & Hall).
    destruct (task_can_return s1 t (steps_reachable s s1 Hs1 Hreach))
      as (s2 & Hs2 & Hr).
    exists s2. split; [by eapply steps_trans |].
    intros x [<- | Hx]; [done |].
    apply (steps_keep_returned s1 s2 x Hs2). by apply Hall.
Qed.


Lemma returned_is_final_witness :
  Maintenance.stop MaintenanceFacts.gc_returned = true /\
  Maintenance.stop MaintenanceFacts.gc_eviction_returned = true /\
  Maintenance.pcs MaintenanceFacts.gc_eviction_returned Maintenance.GCWatch
    = Maintenance.Returned.
Proof.
  apply (returned_is_final MaintenanceFacts.gc_returned
           MaintenanceFacts.gc_eviction_returned Maintenance.GCWatch).
  - eapply Maintenance.reach_step.
    + eapply Maintenance.reach_step; [apply Maintenance.reach_init |].
      apply (Maintenance.step_close false false).
    + apply (Maintenance.step_start_stop false _ Maintenance.GCWatch). reflexivity.
  - eapply MaintenanceFacts.steps_step; [| apply MaintenanceFacts.steps_refl].
    apply (Maintenance.step_start_stop false _ Maintenance.Eviction). reflexivity.
  - reflexivity.
Defined.

Lemma tasks_can_return_witness :
  exists s', MaintenanceFacts.steps gc_in_body s' /\
             forall t, In t [Maintenance.GCWatch; Maintenance.Eviction;
                             Maintenance.UpdateMetrics] ->
                       Maintenance.pcs s' t = Maintenance.Returned.
Proof.
  apply (tasks_can_return
           [Maintenance.GCWatch; Maintenance.Eviction; Maintenance.UpdateMetrics]
           gc_in_body gc_in_body_reachable).
Defined.

(** ** Shutdown: the calls on each database *)

Section CloseCalls.

Import Shutdown.

Variable fails : dbid -> bool.

Lemma calls_on_app (d : dbid) (tr evs : list cevent) :
  ShutdownFacts.calls_on d (tr ++ evs)
    = ShutdownFacts.calls_on d tr ++ ShutdownFacts.calls_on d evs.
Proof. unfold ShutdownFacts.calls_on. apply filter_app. Qed.

Lemma calls_on_nil_r (d : dbid) (tr : list cevent) :
  ShutdownFacts.calls_on d tr = ShutdownFacts.calls_on d (tr ++ []).
Proof. by rewrite app_nil_r. Qed.

Lemma calls_on_own (d : dbid) (evs : list cevent) :
  Forall (fun ev => ShutdownFacts.event_db ev = Some d) evs ->
  ShutdownFacts.calls_on d evs = evs /\
  (forall x, x <> d -> ShutdownFacts.calls_on x evs = []).
Proof.
  unfold ShutdownFacts.calls_on.
  induction 1 as [| ev evs Hev _ [IH1 IH2]]; [done |]. split.
  - rewrite filter_cons_True by done. by rewrite IH1.
  - intros x Hx. rewrite filter_cons_False by congruence. by apply IH2.
Qed.

Lemma close_step_own (d : dbid) (c c' : close_pc) (evs : list cevent) :
  close_step fails d c = Some (c', evs) ->
  Forall (fun ev => ShutdownFacts.event_db ev = Some d) evs.
Proof.
  intros Hstep. destruct c; simpl in Hstep; simplify_eq;
    repeat (apply List.Forall_cons; [done |]); apply List.Forall_nil.
Qed.

(** A step of [d.close()] adds its calls, all of them on [d], to those made. *)
Lemma emitted_step (d : dbid) (c c' : close_pc) (evs : list cevent) :
  close_step fails d c = Some (c', evs) ->
  ShutdownFacts.pc_ok fails d c ->
  ShutdownFacts.emitted fails d c' = ShutdownFacts.emitted fails d c ++ evs /\
  ShutdownFacts.pc_ok fails d c'.
Proof.
  intros Hstep [Hflush Hlog]. unfold ShutdownFacts.pc_ok, ShutdownFacts.full_close.
  destruct c; simpl in Hstep; simplify_eq; simpl.
  - destruct (has_cache d) eqn:Hc; simpl; rewrite ?Hc;
      (split; [done | split; intros; congruence]).
  - rewrite (Hflush eq_refl). split; [done | split; intros; congruence].
  - destruct (fails d) eqn:Hf; simpl; unfold ShutdownFacts.full_close;
      rewrite ?Hf, ?app_nil_r; (split; [done | split; intros; congruence]).
  - unfold ShutdownFacts.full_close. rewrite (Hlog eq_refl), <- app_assoc.
    split; [done | split; intros; congruence].
Qed.

Lemma emitted_prefix (d : dbid) (c : close_pc) :
  ShutdownFacts.pc_ok fails d c ->
  exists rest,
    ShutdownFacts.full_close fails d = ShutdownFacts.emitted fails d c ++ rest.
Proof.
  intros [Hflush Hlog].
  destruct c; simpl; unfold ShutdownFacts.full_close; eauto.
  - eexists. by rewrite <- app_assoc.
  - exists []. by rewrite app_nil_r.
Qed.

Lemma progress_same_m (s s' : state) (d : dbid) :
  (d = Dicts -> m s' = m s) -> (d <> Dicts -> g s' d = g s d) ->
  ShutdownFacts.progress fails s' d = ShutdownFacts.progress fails s d.
Proof.
  intros Hm Hg. unfold ShutdownFacts.progress.
  destruct (decide (d = Dicts)) as [Hd | Hd]; [by rewrite Hm | by rewrite Hg].
Qed.

End CloseCalls.

Section CloseCallsInvariant.

Import Shutdown.

Variable fails : dbid -> bool.

Lemma calls_on_plain (d : dbid) (evs : list cevent) :
  Forall (fun ev => ShutdownFacts.event_db ev = None) evs ->
  ShutdownFacts.calls_on d evs = [].
Proof.
  unfold ShutdownFacts.calls_on. induction 1 as [| ev evs Hev _ IH]; [done |].
  rewrite filter_cons_False by congruence. done.
Qed.

Lemma calls_inv_init (n : nat) : ShutdownFacts.calls_inv fails (init n).
Proof.
  unfold ShutdownFacts.calls_inv, ShutdownFacts.pcs_ok, ShutdownFacts.progress.
  simpl. split; [done |]. split; [| done].
  intros d. by destruct (decide (d = Dicts)).
Qed.

(** The calls on [x] when the caller of [Close] moves between two places
    that are not in [s.dicts.close()]. *)
Lemma progress_main_move (mp mp' : mpc) gs w n tr r w' n' tr' r' (x : dbid) :
  before_dicts mp = true -> before_dicts mp' = true ->
  ShutdownFacts.progress fails (mk_state mp' gs w' n' tr' r') x
    = ShutdownFacts.progress fails (mk_state mp gs w n tr r) x.
Proof.
  intros Hb Hb'. unfold ShutdownFacts.progress. simpl.
  destruct (decide (x = Dicts)); [| done].
  destruct mp, mp'; done.
Qed.

(** The calls on [x] when the goroutine of [d] moves. *)
Lemma progress_gor_move mp gs w n tr r w' n' tr' r' (d x : dbid) (v : gpc) :
  (x = d -> d <> Dicts ->
   ShutdownFacts.progress fails (mk_state mp (<[d := v]> gs) w' n' tr' r') d
     = ShutdownFacts.progress fails (mk_state mp gs w n tr r) d) ->
  ShutdownFacts.progress fails (mk_state mp (<[d := v]> gs) w' n' tr' r') x
    = ShutdownFacts.progress fails (mk_state mp gs w n tr r) x.
Proof.
  intros Hd. destruct (decide (x = d)) as [-> | Hne].
  - destruct (decide (d = Dicts)) as [-> | Hnd]; [| by apply Hd].
    unfold ShutdownFacts.progress. simpl. by destruct (decide (Dicts = Dicts)).
  - unfold ShutdownFacts.progress. simpl.
    destruct (decide (x = Dicts)); [done |]. by rewrite fn_lookup_insert_ne.
Qed.

Lemma pcs_ok_gor mp gs w n tr r w' n' tr' r' (d : dbid) (v : gpc) :
  ShutdownFacts.pcs_ok fails (mk_state mp gs w n tr r) ->
  (forall c, v = GClosing c -> ShutdownFacts.pc_ok fails d c) ->
  ShutdownFacts.pcs_ok fails (mk_state mp (<[d := v]> gs) w' n' tr' r').
Proof.
  intros [Hpm Hpg] Hv. split; [exact Hpm |]. simpl in *.
  intros x c. destruct (decide (d = x)) as [-> | Hne].
  - rewrite fn_lookup_insert. apply Hv.
  - rewrite fn_lookup_insert_ne by done. apply Hpg.
Qed.

Lemma head_kept (tr evs : list cevent) :
  (exists tl, tr = CloseStop :: tl) -> exists tl, tr ++ evs = CloseStop :: tl.
Proof. intros [tl ->]. by exists (tl ++ evs). Qed.

Lemma calls_inv_step (s s' : state) :
  step fails s s' -> inv fails s -> ShutdownFacts.calls_inv fails s ->
  ShutdownFacts.calls_inv fails s'.
Proof.
  intros Hstep (Hmain & Hgor & _) (Hpcs & Hcalls & Hhead).
  destruct Hstep as [gs w n tr r | gs w n tr r | gs w tr r | gs w n tr r
                    | d todo gs w n tr r | gs w n tr r | gs n tr r
                    | c c' evs gs w n tr r Hc | gs w n tr r
                    | d mp gs w n tr r Hpc | d c c' evs mp gs w n tr r Hpc Hc
                    | d mp gs w n tr r Hpc | d mp gs w n tr r Hpc];
    unfold ShutdownFacts.calls_inv; unfold main_inv in Hmain; simpl in *.
  - (* close(s.stop) *)
    split; [by destruct Hpcs |]. split.
    + intros x. rewrite calls_on_app, Hcalls, calls_on_plain, app_nil_r.
      * symmetry. by apply progress_main_move.
      * repeat (apply List.Forall_cons; [done |]). apply List.Forall_nil.
    + rewrite Hhead. simpl. eauto.
  - (* a periodic task returns *)
    split; [by destruct Hpcs |]. split; [| done].
    intros x. rewrite Hcalls. symmetry. by apply progress_main_move.
  - (* s.wg.Wait() returns *)
    split; [by destruct Hpcs |]. split.
    + intros x. rewrite calls_on_app, Hcalls, calls_on_plain, app_nil_r.
      * symmetry. by apply progress_main_move.
      * repeat (apply List.Forall_cons; [done |]). apply List.Forall_nil.
    + by apply head_kept.
  - (* wg.Add *)
    split; [by destruct Hpcs |]. split; [| done].
    intros x. rewrite Hcalls. symmetry. by apply progress_main_move.
  - (* go *)
    destruct Hmain as (_ & Htodo & _).
    split.
    { apply (pcs_ok_gor (MSpawn todo) gs w n tr r w n tr r d GEntry); [| done].
      destruct Hpcs as [_ Hpg]. split; [done | exact Hpg]. }
    split; [| done].
    intros x. rewrite Hcalls.
    transitivity (ShutdownFacts.progress fails (mk_state (MSpawn todo) gs w n tr r) x).
    + symmetry. by apply progress_main_move.
    + symmetry. apply progress_gor_move. intros _ Hd.
      unfold ShutdownFacts.progress. simpl.
      destruct (decide (d = Dicts)); [done |].
      rewrite fn_lookup_insert, (Htodo d); [done | by left].
  - (* the loop of goDB ends *)
    split; [by destruct Hpcs |]. split; [| done].
    intros x. rewrite Hcalls. symmetry. by apply progress_main_move.
  - (* wg.Wait() returns *)
    split.
    { destruct Hpcs as [_ Hpg]. split; [| exact Hpg].
      intros c [= <-]. split; done. }
    split; [| done].
    intros x. rewrite Hcalls. unfold ShutdownFacts.progress. simpl.
    by destruct (decide (x = Dicts)).
  - (* a step of s.dicts.close() *)
    destruct Hpcs as [Hpm Hpg].
    destruct (emitted_step fails Dicts c c' evs Hc (Hpm c eq_refl)) as [Hem Hok].
    destruct (calls_on_own Dicts evs (close_step_own fails Dicts c c' evs Hc))
      as [Hown Hother].
    split. { split; [| exact Hpg]. by intros ? [= <-]. }
    split; [| by apply head_kept].
    intros x. rewrite calls_on_app, Hcalls. unfold ShutdownFacts.progress. simpl.
    destruct (decide (x = Dicts)) as [-> | Hx].
    + by rewrite Hown, Hem.
    + by rewrite Hother, app_nil_r.
  - (* return nil *)
    split. { destruct Hpcs as [_ Hpg]. split; [done | exact Hpg]. }
    split; [| done].
    intros x. rewrite Hcalls. unfold ShutdownFacts.progress. simpl.
    by destruct (decide (x = Dicts)).
  - (* a goroutine enters f *)
    split.
    { apply (pcs_ok_gor mp gs w n tr r); [done |].
      intros c. destruct (decide (d = Dicts)); [done |]. intros [= <-]. split; done. }
    split; [| done].
    intros x. rewrite Hcalls. symmetry. apply progress_gor_move. intros _ Hd.
    unfold ShutdownFacts.progress. simpl.
    destruct (decide (d = Dicts)); [done |].
    by rewrite fn_lookup_insert, Hpc.
  - (* a goroutine makes a step of d.close() *)
    pose proof (Hgor d) as Hd. unfold gor_inv in Hd. simpl in Hd. rewrite Hpc in Hd.
    destruct Hd as (Hne & _).
    pose proof (proj2 Hpcs d c Hpc) as Hokc.
    destruct (emitted_step fails d c c' evs Hc Hokc) as [Hem Hok].
    destruct (calls_on_own d evs (close_step_own fails d c c' evs Hc))
      as [Hown Hother].
    split.
    { apply (pcs_ok_gor mp gs w n tr r); [done |]. by intros ? [= <-]. }
    assert (Hmp : mp <> MCloseStop).
    { intros ->. destruct Hmain as [_ Hall]. rewrite (Hall d) in Hpc. done. }
    split; [| destruct mp; try done; by apply head_kept].
    intros x. rewrite calls_on_app, Hcalls.
    destruct (decide (x = d)) as [-> | Hx].
    + rewrite Hown. unfold ShutdownFacts.progress. simpl.
      destruct (decide (d = Dicts)); [done |].
      by rewrite fn_lookup_insert, Hpc, Hem.
    + rewrite (Hother x Hx), app_nil_r. symmetry.
      apply progress_gor_move. intros Heq. done.
  - (* d.close() returns in a goroutine *)
    split. { apply (pcs_ok_gor mp gs w n tr r); [done | done]. }
    split; [| done].
    intros x. rewrite Hcalls. symmetry. apply progress_gor_move. intros _ Hd.
    unfold ShutdownFacts.progress. simpl.
    destruct (decide (d = Dicts)); [done |].
    by rewrite fn_lookup_insert, Hpc.
  - (* wg.Done() *)
    split. { apply (pcs_ok_gor mp gs w n tr r); [done | done]. }
    split; [| done].
    intros x. rewrite Hcalls. symmetry. apply progress_gor_move. intros _ Hd.
    unfold ShutdownFacts.progress. simpl.
    destruct (decide (d = Dicts)); [done |].
    by rewrite fn_lookup_insert, Hpc.
Qed.

Lemma calls_inv_run (k : nat) (n : nat) (s : state) :
  run fails k (init n) s -> ShutdownFacts.calls_inv fails s.
Proof.
  remember (init n) as s0 eqn:Hs0.
  induction 1 as [| k s0 s s' Hrun IH Hstep]; [subst; apply calls_inv_init |].
  subst s0. eapply calls_inv_step; [exact Hstep | | by apply IH].
  eapply inv_run; [exact Hrun | apply inv_init].
Qed.

End CloseCallsInvariant.

(** X19: in every execution of [Close] the calls made on a database are,
    in order, a beginning of: the flush of its cache when it has one, the
    close of its engine, the log line when that close failed; so no cache
    is flushed twice, no engine is closed twice, and no cache is flushed
    after its engine was closed.  When [Close] has returned each database
    has had all of these calls. *)
Theorem Close_calls_once (fails : Shutdown.dbid -> bool) (n k : nat)
    (s : Shutdown.state) (d : Shutdown.dbid) :
  Shutdown.run fails k (Shutdown.init n) s ->
  (exists rest,
     ShutdownFacts.full_close fails d
       = ShutdownFacts.calls_on d (Shutdown.trace s) ++ rest) /\
  (Shutdown.result s = Some None ->
     ShutdownFacts.calls_on d (Shutdown.trace s) = ShutdownFacts.full_close fails d).
Proof.
  intros Hrun.
  destruct (calls_inv_run fails k n s Hrun) as ([Hpm Hpg] & Hcalls & _).
  destruct (inv_run fails k _ _ Hrun (inv_init fails n))
    as (Hmain & _ & _ & Hres & _).
  rewrite Hcalls. unfold ShutdownFacts.progress. split.
  - destruct (decide (d = Shutdown.Dicts)) as [-> | Hd].
    + destruct (Shutdown.m s) eqn:Hm; try (by eexists);
        [by apply emitted_prefix, Hpm | exists []; by rewrite app_nil_r].
    + destruct (Shutdown.g s d) eqn:Hg; try (by eexists);
        [by apply emitted_prefix, (Hpg d) | exists []; by rewrite app_nil_r
         | exists []; by rewrite app_nil_r].
  - intros Hret. rewrite Hret in Hres.
    unfold Shutdown.main_inv in Hmain.
    destruct (Shutdown.m s); try done. destruct Hmain as [Hall _].
    destruct (decide (d = Shutdown.Dicts)); [done |]. by rewrite (Hall d).
Qed.

Lemma Close_calls_once_witness :
  ShutdownFacts.calls_on Shutdown.Trees (Shutdown.trace Shutdown.sample_final)
    = [Shutdown.CacheFlush Shutdown.Trees; Shutdown.DBClose Shutdown.Trees;
       Shutdown.LogCloseError Shutdown.Trees].
Proof.
  assert (Hrun : Shutdown.run Shutdown.trees_fails (length Shutdown.sample_schedule)
                   (Shutdown.init 4) Shutdown.sample_final).
  { apply exec_run_default. vm_compute. discriminate. }
  assert (Hres : Shutdown.result Shutdown.sample_final = Some None).
  { vm_compute. reflexivity. }
  exact (proj2 (Close_calls_once Shutdown.trees_fails 4
                  (length Shutdown.sample_schedule) Shutdown.sample_final
                  Shutdown.Trees Hrun) Hres).
Defined.

(** X20: in every execution of [Close], a call on a database (a flush, an
    engine close, the logging of a failed close) is made only after the
    stop channel was closed and when no periodic task is left running. *)
Theorem Close_after_tasks (fails : Shutdown.dbid -> bool) (n k : nat)
    (s : Shutdown.state) (pre post : list Shutdown.cevent)
    (ev : Shutdown.cevent) (d : Shutdown.dbid) :
  Shutdown.run fails k (Shutdown.init n) s ->
  Shutdown.trace s = pre ++ ev :: post ->
  ShutdownFacts.event_db ev = Some d ->
  Shutdown.tasks s = O /\ In Shutdown.CloseStop pre.
Proof.
  intros Hrun Htr Hev.
  destruct (calls_inv_run fails k n s Hrun) as (_ & Hcalls & Hhead).
  destruct (inv_run fails k _ _ Hrun (inv_init fails n))
    as (Hmain & _ & _ & _ & Htasks & _).
  assert (Hsome : ShutdownFacts.progress fails s d <> []).
  { rewrite <- Hcalls, Htr. unfold ShutdownFacts.calls_on.
    rewrite filter_app, filter_cons_True by done.
    intros Hnil. apply app_eq_nil in Hnil as [_ Hnil]. done. }
  assert (Hpast : Shutdown.m s <> Shutdown.MCloseStop /\
                  Shutdown.m s <> Shutdown.MTasksWait).
  { unfold ShutdownFacts.progress in Hsome. unfold Shutdown.main_inv in Hmain.
    destruct (decide (d = Shutdown.Dicts)).
    - destruct (Shutdown.m s); done.
    - destruct (Shutdown.m s); try done; destruct Hmain as [_ Hall];
        rewrite (Hall d) in Hsome; done. }
  destruct Hpast as [H1 H2]. split; [by apply Htasks |].
  destruct (Shutdown.m s); try done;
    destruct Hhead as [tl Htl]; rewrite Htr in Htl;
    (destruct pre as [| x pre]; simpl in Htl;
     [injection Htl as -> _; done | injection Htl as -> _; by left]).
Qed.

Lemma Close_after_tasks_witness :
  Shutdown.tasks Shutdown.sample_final = O /\
  In Shutdown.CloseStop
    [Shutdown.CloseStop;
     Shutdown.LogDebug "waiting for storage tasks to finish";
     Shutdown.LogDebug "storage tasks to finished"].
Proof.
  assert (Hrun : Shutdown.run Shutdown.trees_fails (length Shutdown.sample_schedule)
                   (Shutdown.init 4) Shutdown.sample_final).
  { apply exec_run_default. vm_compute. discriminate. }
  refine (Close_after_tasks Shutdown.trees_fails 4 (length Shutdown.sample_schedule)
            Shutdown.sample_final
            [Shutdown.CloseStop;
             Shutdown.LogDebug "waiting for storage tasks to finish";
             Shutdown.LogDebug "storage tasks to finished"]
            [Shutdown.DBClose Shutdown.Trees;
             Shutdown.LogCloseError Shutdown.Trees;
             Shutdown.DBClose Shutdown.Main;
             Shutdown.CacheFlush Shutdown.Segments;
             Shutdown.DBClose Shutdown.Segments;
             Shutdown.CacheFlush Shutdown.Dimensions;
             Shutdown.DBClose Shutdown.Dimensions;
             Shutdown.CacheFlush Shutdown.Dicts;
             Shutdown.DBClose Shutdown.Dicts]
            (Shutdown.CacheFlush Shutdown.Trees) Shutdown.Trees Hrun _ eq_refl).
  vm_compute. reflexivity.
Defined.


(** ** Construction: what a caller of [New] gets *)

